(** * simple-crdts: a shallow embedding of the three CRDT primitives

    The repository ships a last-writer-wins register ([LWW]), a
    positive-negative counter ([PNCounter]) and a tombstone-based text
    sequence ([TextRGA]).

    How the JavaScript is read here:
    - an object used as a dictionary is a finite map [gmap string _] of its
      own properties.  A property read [obj[k]] finds an own property first
      and otherwise what a plain object inherits from [Object.prototype]:
      one of its methods, or the prototype itself under ["__proto__"]
      ([Js.member]); only a name the prototype does not have either reads
      [undefined].  The built-ins are read as the language ships them; a
      write the code makes to one of them is recorded in the trace of the
      call ([MemberWrite]) or named in the comment of the definition, and
      is not followed further;
    - an array is a list;
    - a number that the code only increments, compares and adds is an
      integer of [Z]; a counter map holds integers, and an update that
      stores a string or [NaN] in it ends in [Junked] instead of a map;
    - a string is a [string], compared code unit by code unit;
    - a method that mutates [this] is a function from the object before the
      call to the object after it; the argument of [merge] is only read;
      entry objects are held by value, one object per replica and id;
    - the handlers [onInsert] and [onDelete] are observers: a call to one of
      them is recorded as an event of the operation that made it. *)

From Stdlib Require Import ZArith String Ascii List.
From stdpp Require Import gmap strings list fin_maps sorting pretty.

Local Open Scope string_scope.
Local Open Scope list_scope.
Local Open Scope Z_scope.

(** ** Plain objects as dictionaries *)

Module Js.

(** What [Object.prototype] holds under a name: one of its methods, or,
    under ["__proto__"], the accessor that yields the prototype object
    itself. *)
Inductive Member :=
| Method
| Prototype.

(** The methods of [Object.prototype]. *)
Definition methodNames : list string :=
  ["constructor"; "hasOwnProperty"; "isPrototypeOf"; "propertyIsEnumerable";
   "toLocaleString"; "toString"; "valueOf"; "__defineGetter__";
   "__defineSetter__"; "__lookupGetter__"; "__lookupSetter__"].

(** What [obj[k]] finds on the prototype of a plain object [obj] that has no
    own property [k]: [None] is [undefined]. *)
Definition member (k : string) : option Member :=
  if String.eqb k "__proto__" then Some Prototype
  else if existsb (String.eqb k) methodNames then Some Method
  else None.

Definition inherited (k : string) : bool :=
  match member k with
  | Some _ => true
  | None => false
  end.

End Js.

(** ** Last-writer-wins register *)

Module LWW.

(** Modelled from the spec: the register's implementation is not among the
    sources (only its declaration in index.d.ts is).  The state is the four
    fields [value], [timestamp] (milliseconds since the epoch), [counter]
    and [nodeId]. *)
Record t (T : Type) := mk {
  value : T;
  timestamp : Z;
  counter : Z;
  nodeId : string
}.
Arguments mk {T} value timestamp counter nodeId.
Arguments value {T} _.
Arguments timestamp {T} _.
Arguments counter {T} _.
Arguments nodeId {T} _.

(** Modelled from the spec: the two process-wide constants read at
    comparison time, both durations in milliseconds. *)
Record Config := mkConfig {
  STALE_THRESHOLD_MS : N;
  COUNTER_WINDOW_MS : N
}.

(** Modelled from the spec: the default constants, 30 minutes and 30
    seconds. *)
Definition defaults : Config := mkConfig (30 * 60 * 1000)%N (30 * 1000)%N.

(** Modelled from the spec: what one signal says about a pair of
    registers. *)
Inductive Verdict := ContenderWins | ReceiverWins | Undecided.

(** Modelled from the spec: signal 1, timestamp dominance.  It discriminates
    when the timestamps differ by more than the staleness threshold, and
    then the later timestamp wins outright. *)
Definition byTimestamp {T} (cfg : Config) (self contender : t T) : Verdict :=
  if Z.of_N (STALE_THRESHOLD_MS cfg)
       <? Z.abs (timestamp self - timestamp contender)
  then (if timestamp self <? timestamp contender
        then ContenderWins else ReceiverWins)
  else Undecided.

(** Modelled from the spec: signal 2, the counter tie-break.  It applies when
    the timestamps are within the coalescing window of each other, and then
    the higher counter wins. *)
Definition byCounter {T} (cfg : Config) (self contender : t T) : Verdict :=
  if Z.abs (timestamp self - timestamp contender)
       <=? Z.of_N (COUNTER_WINDOW_MS cfg)
  then (if counter self <? counter contender then ContenderWins
        else if counter contender <? counter self then ReceiverWins
        else Undecided)
  else Undecided.

(** Modelled from the spec: signal 3, the lexicographically greater
    [nodeId] wins. *)
Definition byNodeId {T} (self contender : t T) : Verdict :=
  if String.ltb (nodeId self) (nodeId contender) then ContenderWins
  else if String.ltb (nodeId contender) (nodeId self) then ReceiverWins
  else Undecided.

(** Modelled from the spec: the three signals applied in priority order
    until one discriminates. *)
Definition compare {T} (cfg : Config) (self contender : t T) : Verdict :=
  match byTimestamp cfg self contender with
  | Undecided =>
      match byCounter cfg self contender with
      | Undecided => byNodeId self contender
      | v => v
      end
  | v => v
  end.

(** Modelled from the spec: [competition(contender)] overwrites the four
    fields of the receiver with the contender's when the contender should
    win, and leaves the receiver unchanged otherwise. *)
Definition competition {T} (cfg : Config) (self contender : t T) : t T :=
  match compare cfg self contender with
  | ContenderWins =>
      mk (value contender) (timestamp contender)
         (counter contender) (nodeId contender)
  | _ => self
  end.

End LWW.

(** ** PN-Counter (class [PNCounter]) *)

Module PNCounter.

(** [this.localNodeId], [this.increments], [this.decrements]. *)
Record t := mk {
  localNodeId : string;
  increments : gmap string Z;
  decrements : gmap string Z
}.

(** What [m[k] || 0] evaluates to: a number, or the member of
    [Object.prototype] that the read found, which is an object and so is
    kept by [||]. *)
Inductive Operand :=
| Number (n : Z)
| Inherited (member : Js.Member).

(** [n || 0] on a number: [0] is falsy and is replaced by [0]. *)
Definition numberOr0 (n : Z) : Z := if n =? 0 then 0 else n.

(** [m[k] || 0]: an own key gives its number, a name of [Object.prototype]
    that the map does not own gives the inherited member, any other missing
    key reads [undefined] and gives [0]. *)
Definition or0 (m : gmap string Z) (k : string) : Operand :=
  match m !! k with
  | Some n => Number (numberOr0 n)
  | None =>
      match Js.member k with
      | Some member => Inherited member
      | None => Number 0
      end
  end.

(** The two ways a stored value can fail to be an integer. *)
Inductive Junk :=
| Text
| NotANumber.

(** What an update leaves: a value of the model, or the notice that the
    code has stored a string or [NaN] under some key, after which the maps
    no longer hold integers only. *)
Inductive Update (A : Type) :=
| Stored (a : A)
| Junked (j : Junk).
Arguments Stored {A} a.
Arguments Junked {A} j.

(** [new PNCounter(localNodeId)] with both maps defaulted to [{}]. *)
Definition new (nodeId : string) : t := mk nodeId ∅ ∅.

(** [const value = m[k] || 0; m[k] = value + 1].  With an inherited method
    for [value], [value + 1] is the method's source text followed by ["1"],
    and that string is stored; with the prototype object itself, the
    assignment goes to the [__proto__] setter, which ignores a string. *)
Definition bump (k : string) (m : gmap string Z)
    : Update (gmap string Z) :=
  match or0 m k with
  | Number value => Stored (<[k := value + 1]> m)
  | Inherited Js.Method => Junked Text
  | Inherited Js.Prototype => Stored m
  end.

Definition increment (c : t) : Update t :=
  match bump (localNodeId c) (increments c) with
  | Stored incs => Stored (mk (localNodeId c) incs (decrements c))
  | Junked j => Junked j
  end.

Definition decrement (c : t) : Update t :=
  match bump (localNodeId c) (decrements c) with
  | Stored decs => Stored (mk (localNodeId c) (increments c) decs)
  | Junked j => Junked j
  end.

(** Body of one [for (const nodeId in other.m)] iteration: [acc] is
    [this.m] so far and [remoteValue] is [other.m[nodeId]].  [Math.max] of
    an inherited member and a number is [NaN]; it is stored under a method's
    name and ignored by the [__proto__] setter. *)
Definition mergeStep (nodeId : string) (remoteValue : Z)
    (acc : Update (gmap string Z)) : Update (gmap string Z) :=
  match acc with
  | Junked j => Junked j
  | Stored m =>
      let remote := numberOr0 remoteValue in
      match or0 m nodeId with
      | Number local => Stored (<[nodeId := Z.max local remote]> m)
      | Inherited Js.Method => Junked NotANumber
      | Inherited Js.Prototype => Stored m
      end
  end.

(** One of the two loops of [merge]: it visits the keys of the argument's
    map only. *)
Definition mergeMap (mine theirs : gmap string Z)
    : Update (gmap string Z) :=
  map_fold mergeStep (Stored mine) theirs.

Definition merge (c other : t) : Update t :=
  match mergeMap (increments c) (increments other) with
  | Junked j => Junked j
  | Stored incs =>
      match mergeMap (decrements c) (decrements other) with
      | Junked j => Junked j
      | Stored decs => Stored (mk (localNodeId c) incs decs)
      end
  end.

(** [let sum = 0; for (const k in m) sum += m[k]]. *)
Definition sumValues (m : gmap string Z) : Z :=
  map_fold (fun _ v acc => acc + v) 0 m.

Definition getCount (c : t) : Z :=
  sumValues (increments c) - sumValues (decrements c).

(** States that arise from a fresh replica by local updates and by
    merging in other such states, every call having stored integers. *)
Inductive reachable : t -> Prop :=
| reach_new nodeId : reachable (new nodeId)
| reach_increment c c' :
    reachable c -> increment c = Stored c' -> reachable c'
| reach_decrement c c' :
    reachable c -> decrement c = Stored c' -> reachable c'
| reach_merge c other c' :
    reachable c -> reachable other -> merge c other = Stored c' ->
    reachable c'.

(** *** Vocabulary for the statements below *)

(** No tally of the map is negative. *)
Definition nonneg (m : gmap string Z) : Prop :=
  forall k v, m !! k = Some v -> 0 <= v.

(** Every tally of the map is at least one. *)
Definition positive (m : gmap string Z) : Prop :=
  forall k v, m !! k = Some v -> 1 <= v.

(** No key of the map is a name of [Object.prototype]. *)
Definition plainKeys (m : gmap string Z) : Prop :=
  forall k, is_Some (m !! k) -> Js.member k = None.

(** The larger of the two tallies under one key, a missing receiver tally
    counting as [0]; the receiver's own when the argument has none. *)
Definition joinTally (mine theirs : option Z) : option Z :=
  match theirs with
  | Some remote => Some (Z.max (default 0 mine) remote)
  | None => mine
  end.

(** The key-wise maximum [merge] is meant to compute. *)
Definition maxMap (mine theirs : gmap string Z) : gmap string Z :=
  base.merge joinTally mine theirs.

(** *** Snapshots *)

(** The object [toJSON] returns and [fromJSON] accepts; the two maps may
    be missing from what [fromJSON] is given. *)
Record PNCounterState := mkState {
  jsonLocalNodeId : string;
  jsonIncrements : option (gmap string Z);
  jsonDecrements : option (gmap string Z)
}.

(** [new PNCounter(localNodeId, increments, decrements)]: both maps are
    copied with [{ ...m }]. *)
Definition construct (nodeId : string) (incs decs : gmap string Z) : t :=
  mk nodeId incs decs.

Definition toJSON (c : t) : PNCounterState :=
  mkState (localNodeId c) (Some (increments c)) (Some (decrements c)).

(** [json.increments || {}]: a missing map is replaced by the empty one. *)
Definition fromJSON (json : PNCounterState) : t :=
  construct (jsonLocalNodeId json)
    (default ∅ (jsonIncrements json))
    (default ∅ (jsonDecrements json)).

End PNCounter.

(** ** Text RGA (class [TextRGA]) *)

Module TextRGA.

(** An entry [{ char, deleted }] of [this.entries]. *)
Record Entry := mkEntry {
  char : string;
  deleted : bool
}.

(** What a call does outside the object: a call of [onInsert] or
    [onDelete] with the argument handed to it, or the assignment
    [entry.deleted = true] carried out on the member of [Object.prototype]
    that [this.entries[id]] found. *)
Inductive Event :=
| InsertEvent (index : Z) (id : string) (c : string)
| DeleteEvent (index : Z) (id : string)
| MemberWrite (id : string).

(** The fields of a [TextRGA] object.  [onInsert] and [onDelete] record
    whether a handler is registered ([null] is [false]); what a handler
    does is the caller's business, a call only appears as an [Event] in the
    trace of the operation that made it. *)
Record t := mk {
  localNodeId : string;
  localCounter : Z;
  entries : gmap string Entry;
  order : list string;
  onInsert : bool;
  onDelete : bool
}.

(** A JavaScript value as [insertAt] may receive it for [char]. *)
Inductive JsValue :=
| JsUndefined
| JsNull
| JsBoolean (b : bool)
| JsNumber (n : Z)
| JsString (s : string)
| JsObject.

Inductive Outcome (A : Type) :=
| Return (a : A)
| ThrowTypeError (message : string).
Arguments Return {A} a.
Arguments ThrowTypeError {A} message.

(** What a method call leaves behind: how it completed, the object after
    the call, and what it did outside the object, oldest first. *)
Record Run (A : Type) := mkRun {
  outcome : Outcome A;
  after : t;
  fired : list Event
}.
Arguments mkRun {A} outcome after fired.
Arguments outcome {A} _.
Arguments after {A} _.
Arguments fired {A} _.

(** [new TextRGA(localNodeId)]: counter [0], no entries, empty order, no
    handlers. *)
Definition new (nodeId : string) : t := mk nodeId 0 ∅ [] false false.

(** [#nextId]: [this.localCounter += 1] and the template string
    [`${this.localNodeId}:${this.localCounter}`]. *)
Definition nextId (s : t) : string * t :=
  let c := localCounter s + 1 in
  (localNodeId s +:+ ":" +:+ pretty c,
   mk (localNodeId s) c (entries s) (order s) (onInsert s) (onDelete s)).

(** [!this.entries[entryId]?.deleted]: an id without an entry counts as
    visible, whether the read gives [undefined] or a member of
    [Object.prototype], which has no property [deleted]. *)
Definition isLive (es : gmap string Entry) (entryId : string) : bool :=
  match es !! entryId with
  | Some entry => negb (deleted entry)
  | None => true
  end.

(** [this.order.filter((entryId) => !this.entries[entryId]?.deleted)]. *)
Definition visibleIds (s : t) : list string :=
  List.filter (isLive (entries s)) (order s).

(** [Math.max(0, Math.min(index, visibleIds.length))]. *)
Definition clamp (index : Z) (len : nat) : Z :=
  Z.max 0 (Z.min index (Z.of_nat len)).

(** One iteration of [for (const entryId of this.order)] in [insertAt]; the
    accumulator is [(newOrder, visiblePos)]. *)
Definition spliceStep (es : gmap string Entry) (id : string) (clampedIndex : Z)
    (acc : list string * Z) (entryId : string) : list string * Z :=
  let '(newOrder, visiblePos) := acc in
  if isLive es entryId then
    ((if visiblePos =? clampedIndex then newOrder ++ [id] else newOrder)
       ++ [entryId],
     visiblePos + 1)
  else (newOrder ++ [entryId], visiblePos).

Definition spliceLoop (es : gmap string Entry) (id : string) (clampedIndex : Z)
    (ord : list string) : list string * Z :=
  fold_left (spliceStep es id clampedIndex) ord ([], 0).

(** [newOrder.includes(id)]. *)
Definition includes (l : list string) (id : string) : bool :=
  existsb (String.eqb id) l.

Definition insertAt (index : Z) (c : JsValue) (s : t) : Run string :=
  match c with
  | JsString ch =>
      if negb (Nat.eqb (String.length ch) 1) then
        mkRun (ThrowTypeError
                 "TextRGA.insertAt expects a single character string.") s []
      else
        let '(id, s1) := nextId s in
        let visible := visibleIds s1 in
        let clampedIndex := clamp index (length visible) in
        let newOrder :=
          fst (spliceLoop (entries s1) id clampedIndex (order s1)) in
        let newOrder :=
          if (clampedIndex =? Z.of_nat (length visible))
             && negb (includes newOrder id)
          then newOrder ++ [id] else newOrder in
        mkRun (Return id)
              (mk (localNodeId s1) (localCounter s1)
                  (<[id := mkEntry ch false]> (entries s1))
                  newOrder (onInsert s1) (onDelete s1))
              (if onInsert s1 then [InsertEvent clampedIndex id ch] else [])
  | _ =>
      mkRun (ThrowTypeError
               "TextRGA.insertAt expects a single character string.") s []
  end.

(** Under an id without an entry, [this.entries[id]] is [undefined] and
    the method returns, unless the id names a member of [Object.prototype]:
    that member is an object, [if (!entry) return] lets it pass, the flag is
    written on it and the handler is called; [entries] and [order] stay as
    they are. *)
Definition deleteAt (index : Z) (s : t) : Run unit :=
  let visible := visibleIds s in
  if (index <? 0) || (index >=? Z.of_nat (length visible)) then
    mkRun (Return tt) s []
  else
    match visible !! Z.to_nat index with
    | None => mkRun (Return tt) s []
    | Some id =>
        match entries s !! id with
        | None =>
            if Js.inherited id then
              mkRun (Return tt) s
                    (MemberWrite id
                       :: (if onDelete s then [DeleteEvent index id] else []))
            else mkRun (Return tt) s []
        | Some entry =>
            mkRun (Return tt)
                  (mk (localNodeId s) (localCounter s)
                      (<[id := mkEntry (char entry) true]> (entries s))
                      (order s) (onInsert s) (onDelete s))
                  (if onDelete s then [DeleteEvent index id] else [])
        end
    end.

(** One iteration of [for (const id in other.entries)] in [merge]; [acc] is
    [this.entries] so far.  Under an id that [acc] does not own and that
    names a member of [Object.prototype], [local] is that member, an object:
    [if (!local)] fails, the flag is assigned on the member, and
    [this.entries] gets no entry. *)
Definition mergeEntry (id : string) (remote : Entry)
    (acc : gmap string Entry) : gmap string Entry :=
  match acc !! id with
  | None =>
      if Js.inherited id then acc
      else <[id := mkEntry (char remote) (deleted remote)]> acc
  | Some local =>
      <[id := mkEntry (char local) (deleted local || deleted remote)]> acc
  end.

Definition mergeEntries (mine theirs : gmap string Entry)
    : gmap string Entry :=
  map_fold mergeEntry mine theirs.

(** The comparison [Array.prototype.sort] uses without a comparator: code
    unit by code unit, a proper prefix first. *)
Definition idLe (a b : string) : Prop := String.leb a b = true.

#[global] Instance idLe_dec (a b : string) : Decision (idLe a b) :=
  bool_eq_dec (String.leb a b) true.

(** [Array.from(idSet).sort()].  The ids handed to it are pairwise distinct,
    so the result does not depend on the sorting algorithm. *)
Definition sortIds (ids : list string) : list string := merge_sort idLe ids.

(** [Object.keys(this.entries)]. *)
Definition keys (es : gmap string Entry) : list string :=
  (map_to_list es).*1.

(** [new Set([...this.order, ...other.order, ...Object.keys(this.entries)])]
    read back with [Array.from].  Which occurrence of a repeated id is kept
    does not show after the sort that follows. *)
Definition idSet (mine theirs : list string) (es : gmap string Entry)
    : list string :=
  remove_dups (mine ++ theirs ++ keys es).

(** [n || 0] on a number. *)
Definition orZero (n : Z) : Z := if n =? 0 then 0 else n.

Definition merge (s other : t) : t :=
  let es := mergeEntries (entries s) (entries other) in
  mk (localNodeId s)
     (Z.max (localCounter s) (orZero (localCounter other)))
     es
     (sortIds (idSet (order s) (order other) es))
     (onInsert s) (onDelete s).

(** One iteration of [for (const id of this.order)] in [getText].  Under an
    id without an entry that names a member of [Object.prototype], [entry]
    is that member: it is an object without [deleted], the guard lets it
    pass, and [entry.char] is [undefined], which [+=] appends as text. *)
Definition appendVisible (es : gmap string Entry) (result : string)
    (id : string) : string :=
  match es !! id with
  | Some entry => if deleted entry then result else result +:+ char entry
  | None => if Js.inherited id then result +:+ "undefined" else result
  end.

Definition getText (s : t) : string :=
  fold_left (appendVisible (entries s)) (order s) "".

(** States a replica can get into from a fresh object through the three
    mutating methods. *)
Inductive reachable : t -> Prop :=
| reach_new nodeId : reachable (new nodeId)
| reach_insertAt s index c :
    reachable s -> reachable (after (insertAt index c s))
| reach_deleteAt s index :
    reachable s -> reachable (after (deleteAt index s))
| reach_merge s other :
    reachable s -> reachable other -> reachable (merge s other).

(** *** Vocabulary for the statements below *)

(** What an id that names no member of [Object.prototype] maps to after
    [merge], from what the receiver and the argument map it to. *)
Definition joinEntry (local remote : option Entry) : option Entry :=
  match local, remote with
  | Some l, Some r => Some (mkEntry (char l) (deleted l || deleted r))
  | Some l, None => Some l
  | None, r => r
  end.

(** The same for any id: an id that names a member of [Object.prototype]
    gets no entry from the argument. *)
Definition joinEntryAt (id : string) (local remote : option Entry)
    : option Entry :=
  match local with
  | Some _ => joinEntry local remote
  | None => if Js.inherited id then None else remote
  end.

(** No key names a member of [Object.prototype]. *)
Definition plainIds (es : gmap string Entry) : Prop :=
  forall id, is_Some (es !! id) -> Js.inherited id = false.

(** Two states agree when an id they both hold carries the same
    character in both. *)
Definition agree (a b : t) : Prop :=
  forall id x y,
    entries a !! id = Some x -> entries b !! id = Some y -> char x = char y.

(** Every id a state mentions, in [order] or as a key of [entries]. *)
Definition ids (s : t) : gset string :=
  list_to_set (order s) ∪ dom (entries s).

(** A way of merging states: [Join p q] is [p.merge(q)] run on the results
    of [p] and [q]. *)
Inductive Plan :=
| Leaf (s : t)
| Join (receiver argument : Plan).

Fixpoint run (p : Plan) : t :=
  match p with
  | Leaf s => s
  | Join receiver argument => merge (run receiver) (run argument)
  end.

Fixpoint leaves (p : Plan) : list t :=
  match p with
  | Leaf s => [s]
  | Join receiver argument => leaves receiver ++ leaves argument
  end.

(** [ord] with [id] put immediately before its [j]-th visible id (counting
    from 0); [ord] itself when it has no such id. *)
Fixpoint spliceAt (es : gmap string Entry) (id : string) (j : nat)
    (ord : list string) : list string :=
  match ord with
  | [] => []
  | x :: rest =>
      if isLive es x then
        match j with
        | O => id :: x :: rest
        | S j' => x :: spliceAt es id j' rest
        end
      else x :: spliceAt es id j rest
  end.

(** The character of the entry an id has, unless that entry is deleted. *)
Definition liveChar (es : gmap string Entry) (id : string) : option string :=
  match es !! id with
  | Some entry => if deleted entry then None else Some (char entry)
  | None => None
  end.

Definition hasEntry (es : gmap string Entry) (id : string) : bool :=
  match es !! id with
  | Some _ => true
  | None => false
  end.

Definition threw {A : Type} (r : Run A) : Prop :=
  exists message, outcome r = ThrowTypeError message.

Definition isSingleCharString (c : JsValue) : Prop :=
  exists ch, c = JsString ch /\ String.length ch = 1%nat.

(** [s] with another [order]. *)
Definition withOrder (s : t) (ord : list string) : t :=
  mk (localNodeId s) (localCounter s) (entries s) ord
     (onInsert s) (onDelete s).

(** *** Construction and snapshots *)

(** The object [toJSON] returns and [fromJSON] accepts; everything but the
    node id may be missing from what [fromJSON] is given. *)
Record TextRGAJSON := mkJSON {
  jsonLocalNodeId : string;
  jsonLocalCounter : option Z;
  jsonEntries : option (gmap string Entry);
  jsonOrder : option (list string)
}.

(** [new TextRGA(localNodeId, localCounter, entries, order, onInsert,
    onDelete)]: [entries] is copied with [{ ...entries }], [order] with
    [slice()], and a missing handler becomes [null]. *)
Definition construct (nodeId : string) (counter : Z)
    (es : gmap string Entry) (ord : list string)
    (handlesInsert handlesDelete : bool) : t :=
  mk nodeId counter es ord handlesInsert handlesDelete.

Definition toJSON (s : t) : TextRGAJSON :=
  mkJSON (localNodeId s) (Some (localCounter s)) (Some (entries s))
         (Some (order s)).

(** [json.localCounter || 0], [json.entries || {}], [json.order || []], and
    no handlers. *)
Definition fromJSON (json : TextRGAJSON) : t :=
  construct (jsonLocalNodeId json)
    (match jsonLocalCounter json with Some n => orZero n | None => 0 end)
    (default ∅ (jsonEntries json))
    (default [] (jsonOrder json))
    false false.

(** *** More vocabulary *)

(** The characters [getText] concatenates, one list element per id. *)
Definition visibleChars (s : t) : list string :=
  omap (liveChar (entries s)) (order s).

(** What an id of [order] adds to the text in [getText]: the character of
    its entry unless that entry is deleted, and nothing when it has no
    entry, except under a name of [Object.prototype], where the loop appends
    ["undefined"]. *)
Definition shown (es : gmap string Entry) (id : string) : option string :=
  match es !! id with
  | Some entry => if deleted entry then None else Some (char entry)
  | None => if Js.inherited id then Some "undefined" else None
  end.

(** [entries[id].char], for an id that has an entry. *)
Definition charOf (es : gmap string Entry) (id : string) : string :=
  match es !! id with
  | Some entry => char entry
  | None => ""
  end.

Fixpoint colonFree (s : string) : bool :=
  match s with
  | EmptyString => true
  | String c rest => negb (Ascii.eqb c ":") && colonFree rest
  end.

(** No id the state mentions carries a counter above [localCounter]. *)
Definition countersBelow (s : t) : Prop :=
  forall n c, localCounter s < c -> (n +:+ ":" +:+ pretty c) ∉ ids s.

(** What the three mutating methods keep true from a fresh replica on. *)
Definition wellFormed (s : t) : Prop :=
  NoDup (order s)
  /\ (forall id, id ∈ order s <-> is_Some (entries s !! id))
  /\ countersBelow s
  /\ plainIds (entries s).

(** [later s s']: the replica in state [s] gets to state [s'] through
    further calls of [insertAt], [deleteAt] and [merge], the merged-in
    states being states of replicas themselves. *)
Inductive later : t -> t -> Prop :=
| later_now s : later s s
| later_insertAt s s' index c :
    later s s' -> later s (after (insertAt index c s'))
| later_deleteAt s s' index :
    later s s' -> later s (after (deleteAt index s'))
| later_merge s s' other :
    later s s' -> reachable other -> later s (merge s' other).

End TextRGA.

(** ** Sample replicas *)

Module Samples.

(** [new PNCounter("alice")] after one and after two calls of
    [increment()]. *)
Definition alice1 : PNCounter.t := PNCounter.mk "alice" {["alice" := 1]} ∅.

Definition alice : PNCounter.t := PNCounter.mk "alice" {["alice" := 2]} ∅.

(** [new PNCounter("bob")] after [increment()], and after [decrement()] on
    top of that. *)
Definition bob1 : PNCounter.t := PNCounter.mk "bob" {["bob" := 1]} ∅.

Definition bob : PNCounter.t :=
  PNCounter.mk "bob" {["bob" := 1]} {["bob" := 1]}.

(** [PNCounter.fromJSON({ localNodeId: "b", increments: { constructor: 1 }
    })]: a tally under a node id that is also a name of
    [Object.prototype]. *)
Definition namedConstructor : PNCounter.t :=
  PNCounter.mk "b" {["constructor" := 1]} ∅.

(** [a = new TextRGA("A"); a.insertAt(0, "a"); a.insertAt(0, "b")]. *)
Definition prepended : TextRGA.t :=
  TextRGA.after (TextRGA.insertAt 0 (TextRGA.JsString "b")
    (TextRGA.after (TextRGA.insertAt 0 (TextRGA.JsString "a")
      (TextRGA.new "A")))).

(** Ten characters typed one after the other on a fresh replica:
    [insertAt(0, "a")], [insertAt(1, "b")], ..., [insertAt(9, "j")]. *)
Definition typed : TextRGA.t :=
  fold_left
    (fun s '(index, ch) =>
       TextRGA.after (TextRGA.insertAt index (TextRGA.JsString ch) s))
    [(0, "a"); (1, "b"); (2, "c"); (3, "d"); (4, "e");
     (5, "f"); (6, "g"); (7, "h"); (8, "i"); (9, "j")]
    (TextRGA.new "A").

(** Two replicas created under the same node id, each with one insert. *)
Definition forkX : TextRGA.t :=
  TextRGA.after (TextRGA.insertAt 0 (TextRGA.JsString "x") (TextRGA.new "a")).

Definition forkY : TextRGA.t :=
  TextRGA.after (TextRGA.insertAt 0 (TextRGA.JsString "y") (TextRGA.new "a")).

(** Replicas under node ids of their own. *)
Definition hi : TextRGA.t :=
  TextRGA.after (TextRGA.insertAt 1 (TextRGA.JsString "i")
    (TextRGA.after (TextRGA.insertAt 0 (TextRGA.JsString "H")
      (TextRGA.new "A")))).

Definition bang : TextRGA.t :=
  TextRGA.after (TextRGA.deleteAt 0
    (TextRGA.after (TextRGA.insertAt 0 (TextRGA.JsString "?")
      (TextRGA.after (TextRGA.insertAt 0 (TextRGA.JsString "!")
        (TextRGA.new "B")))))).

(** [hi] after [deleteAt(0)]. *)
Definition hiStruck : TextRGA.t := TextRGA.after (TextRGA.deleteAt 0 hi).

Definition dot : TextRGA.t :=
  TextRGA.after (TextRGA.insertAt 0 (TextRGA.JsString ".") (TextRGA.new "C")).

(** [new TextRGA("A", 0, entries, ["A:1", "B:1"])] with both ids visible: the
    counter is behind the ids the state already holds. *)
Definition staleCounter : TextRGA.t :=
  TextRGA.mk "A" 0
    {["A:1" := TextRGA.mkEntry "x" false; "B:1" := TextRGA.mkEntry "y" false]}
    ["A:1"; "B:1"] false false.

(** [new TextRGA("A", 0, {}, ["B:7"], undefined, handler)]: an id in
    [order] without an entry, and an [onDelete] handler registered. *)
Definition dangling : TextRGA.t :=
  TextRGA.mk "A" 0 ∅ ["B:7"] false true.

(** [new TextRGA("B", 0, {}, ["constructor"])]: an id in [order] without an
    entry that is also a name of [Object.prototype]. *)
Definition listsConstructor : TextRGA.t :=
  TextRGA.mk "B" 0 ∅ ["constructor"] false false.

(** The same with an [onDelete] handler registered. *)
Definition listsConstructorHandled : TextRGA.t :=
  TextRGA.mk "B" 0 ∅ ["constructor"] false true.

(** [new TextRGA("B", 0, { constructor: { char: "x", deleted: false } },
    ["constructor"])]: an entry under a name of [Object.prototype]. *)
Definition holdsConstructor : TextRGA.t :=
  TextRGA.mk "B" 0 {["constructor" := TextRGA.mkEntry "x" false]}
    ["constructor"] false false.

End Samples.

(** * Properties *)

(** ** Register *)

Module LWWFacts.
Import LWW.

(** C9: of two registers with the same timestamp and counters 1 and 2 the
    value of the counter-2 register is the one left after [competition],
    whichever side is the receiver; and of two registers whose timestamps
    differ by more than the staleness threshold the later one is left,
    whatever the counters are. *)
Theorem competition_counter_then_staleness {T : Type} (cfg : Config)
    (a b early late : t T) :
  timestamp a = timestamp b ->
  counter a = 1 ->
  counter b = 2 ->
  Z.of_N (STALE_THRESHOLD_MS cfg)
    < Z.abs (timestamp early - timestamp late) ->
  timestamp early < timestamp late ->
  (value (competition cfg a b) = value b
   /\ value (competition cfg b a) = value b)
  /\ (competition cfg early late = late
      /\ competition cfg late early = late).
Proof.
  intros Hts Ha Hb Hfar Hlt.
  split; split.
  - unfold competition, compare, byTimestamp, byCounter.
    rewrite Hts, Z.sub_diag, Ha, Hb, Z.abs_0.
    destruct (Z.ltb_spec (Z.of_N (STALE_THRESHOLD_MS cfg)) 0); [lia|].
    destruct (Z.leb_spec 0 (Z.of_N (COUNTER_WINDOW_MS cfg))); [|lia].
    reflexivity.
  - unfold competition, compare, byTimestamp, byCounter.
    rewrite Hts, Z.sub_diag, Ha, Hb, Z.abs_0.
    destruct (Z.ltb_spec (Z.of_N (STALE_THRESHOLD_MS cfg)) 0); [lia|].
    destruct (Z.leb_spec 0 (Z.of_N (COUNTER_WINDOW_MS cfg))); [|lia].
    reflexivity.
  - unfold competition, compare, byTimestamp.
    destruct (Z.ltb_spec (Z.of_N (STALE_THRESHOLD_MS cfg))
                (Z.abs (timestamp early - timestamp late))); [|lia].
    destruct (Z.ltb_spec (timestamp early) (timestamp late)); [|lia].
    by destruct late.
  - unfold competition, compare, byTimestamp.
    destruct (Z.ltb_spec (Z.of_N (STALE_THRESHOLD_MS cfg))
                (Z.abs (timestamp late - timestamp early))); [|lia].
    destruct (Z.ltb_spec (timestamp late) (timestamp early)); [lia|].
    reflexivity.
Qed.

Lemma competition_counter_then_staleness_defaults :
  let a := mk "draft" 1000 1 "node-a" in
  let b := mk "published" 1000 2 "node-b" in
  let early := mk "old" 0 9 "node-z" in
  let late := mk "new" 1800001 0 "node-a" in
  (value (competition defaults a b) = "published"
   /\ value (competition defaults b a) = "published")
  /\ (competition defaults early late = late
      /\ competition defaults late early = late).
Proof.
  intros a b early late.
  apply (competition_counter_then_staleness defaults a b early late);
    vm_compute; first [reflexivity | discriminate].
Defined.

End LWWFacts.

(** ** PN-Counter *)

Module PNCounterFacts.
Import PNCounter.

Lemma numberOr0_id (n : Z) : numberOr0 n = n.
Proof. unfold numberOr0. destruct (Z.eqb_spec n 0); congruence. Qed.

Lemma maxMap_lookup (mine theirs : gmap string Z) (k : string) :
  maxMap mine theirs !! k = joinTally (mine !! k) (theirs !! k).
Proof.
  unfold maxMap. rewrite lookup_merge.
  by destruct (mine !! k), (theirs !! k).
Qed.

(** The loop of [merge] computes the key-wise maximum as long as every key
    it visits is one the receiver owns or is not a name of
    [Object.prototype]. *)
Lemma mergeMap_spec (mine theirs : gmap string Z) :
  (forall k, is_Some (theirs !! k) ->
             is_Some (mine !! k) \/ Js.member k = None) ->
  mergeMap mine theirs = Stored (maxMap mine theirs).
Proof.
  intros Hkeys.
  assert (H : (forall k, is_Some (theirs !! k) ->
                 is_Some (mine !! k) \/ Js.member k = None) ->
              exists m', mergeMap mine theirs = Stored m'
                /\ forall k, m' !! k = joinTally (mine !! k) (theirs !! k)).
  { unfold mergeMap.
    apply (map_fold_weak_ind (fun r (m : gmap string Z) =>
      (forall k, is_Some (m !! k) ->
                 is_Some (mine !! k) \/ Js.member k = None) ->
      exists m', r = Stored m'
        /\ forall k, m' !! k = joinTally (mine !! k) (m !! k))).
    - intros _. exists mine. split; [done|]. intros k.
      by rewrite lookup_empty.
    - intros i x m r Hi IH Hk.
      destruct IH as (m' & -> & Hm').
      { intros k Hs. apply Hk.
        destruct (decide (i = k)) as [->|Hne].
        - rewrite Hi in Hs. by destruct Hs.
        - by rewrite lookup_insert_ne. }
      assert (Hown : m' !! i = mine !! i) by (by rewrite Hm', Hi).
      assert (Hop : exists l, or0 m' i = Number l
                              /\ l = default 0 (mine !! i)).
      { unfold or0. rewrite Hown.
        destruct (mine !! i) as [n|] eqn:E.
        - exists (numberOr0 n). by rewrite numberOr0_id.
        - assert (Hi' : is_Some (<[i:=x]> m !! i))
            by (by rewrite lookup_insert_eq).
          destruct (Hk i Hi') as [[? ?]|Hp]; [congruence|].
          rewrite Hp. by exists 0. }
      destruct Hop as (l & Hop & ->). simpl. rewrite Hop, numberOr0_id.
      eexists. split; [done|]. intros k.
      destruct (decide (i = k)) as [->|Hne].
      + by rewrite !lookup_insert_eq.
      + rewrite !lookup_insert_ne by done. apply Hm'. }
  destruct (H Hkeys) as (m' & -> & Hm'). f_equal.
  apply map_eq. intros k. by rewrite Hm', maxMap_lookup.
Qed.

Lemma mergeMap_plain (mine theirs : gmap string Z) :
  plainKeys theirs -> mergeMap mine theirs = Stored (maxMap mine theirs).
Proof. intros Hp. apply mergeMap_spec. intros k Hk. right. by apply Hp. Qed.

Lemma merge_plain (c other : t) :
  plainKeys (increments other) -> plainKeys (decrements other) ->
  merge c other
  = Stored (mk (localNodeId c)
               (maxMap (increments c) (increments other))
               (maxMap (decrements c) (decrements other))).
Proof. intros Hi Hd. unfold merge. by rewrite !mergeMap_plain. Qed.

Lemma bump_plain (k : string) (m : gmap string Z) :
  is_Some (m !! k) \/ Js.member k = None ->
  bump k m = Stored (<[k := default 0 (m !! k) + 1]> m).
Proof.
  intros Hk. unfold bump, or0.
  destruct (m !! k) as [n|] eqn:E; simpl.
  - by rewrite numberOr0_id.
  - destruct Hk as [[? ?]| ->]; done.
Qed.

(** [plainKeys] can be checked key by key. *)
Lemma plainKeys_by_key (m : gmap string Z) :
  Forall (fun k => Js.member k = None) (elements (dom m)) -> plainKeys m.
Proof.
  rewrite Forall_forall. intros H k Hk. apply H.
  by apply elem_of_elements, elem_of_dom.
Qed.

(** *** The key-wise maximum *)

Lemma positive_nonneg (m : gmap string Z) : positive m -> nonneg m.
Proof. intros H k v Hk. specialize (H k v Hk). lia. Qed.

Lemma positive_maxMap (a b : gmap string Z) :
  positive a -> positive b -> positive (maxMap a b).
Proof.
  intros Ha Hb k v. rewrite maxMap_lookup.
  destruct (b !! k) as [y|] eqn:Eb; simpl.
  - intros [= <-]. pose proof (Hb k y Eb). lia.
  - apply Ha.
Qed.

Lemma plainKeys_maxMap (a b : gmap string Z) :
  plainKeys a -> plainKeys b -> plainKeys (maxMap a b).
Proof.
  intros Ha Hb k. rewrite maxMap_lookup.
  destruct (b !! k) as [y|] eqn:Eb; simpl.
  - intros _. apply Hb. by rewrite Eb.
  - apply Ha.
Qed.

Lemma maxMap_comm (a b : gmap string Z) :
  nonneg a -> nonneg b -> maxMap a b = maxMap b a.
Proof.
  intros Ha Hb. apply map_eq. intros k. rewrite !maxMap_lookup.
  destruct (a !! k) as [x|] eqn:Ea, (b !! k) as [y|] eqn:Eb; simpl;
    try done; f_equal;
    try (pose proof (Ha k x Ea)); try (pose proof (Hb k y Eb)); lia.
Qed.

Lemma maxMap_assoc (a b c : gmap string Z) :
  nonneg a -> nonneg c ->
  maxMap (maxMap a b) c = maxMap a (maxMap b c).
Proof.
  intros Ha Hc. apply map_eq. intros k. rewrite !maxMap_lookup.
  destruct (a !! k) as [x|] eqn:Ea, (b !! k) as [y|] eqn:Eb,
           (c !! k) as [z|] eqn:Ec;
    simpl; try done; f_equal;
    try (pose proof (Ha k x Ea)); try (pose proof (Hc k z Ec)); lia.
Qed.

Lemma maxMap_again (a b : gmap string Z) :
  maxMap (maxMap a b) b = maxMap a b.
Proof.
  apply map_eq. intros k. rewrite !maxMap_lookup.
  destruct (b !! k) as [y|] eqn:Eb; simpl; [|done]. f_equal. lia.
Qed.

Lemma maxMap_absorb (a b : gmap string Z) :
  nonneg a -> nonneg b -> maxMap b (maxMap a b) = maxMap a b.
Proof.
  intros Ha Hb. apply map_eq. intros k. rewrite !maxMap_lookup.
  destruct (a !! k) as [x|] eqn:Ea, (b !! k) as [y|] eqn:Eb; simpl;
    try done; f_equal;
    try (pose proof (Ha k x Ea)); try (pose proof (Hb k y Eb)); lia.
Qed.

Lemma maxMap_same (m : gmap string Z) : maxMap m m = m.
Proof.
  apply map_eq. intros k. rewrite maxMap_lookup.
  destruct (m !! k) as [v|] eqn:E; simpl; [|done]. f_equal. lia.
Qed.

Lemma maxMap_upper_bound (a b : gmap string Z) (k : string) (v : Z) :
  (a !! k = Some v -> exists w, maxMap a b !! k = Some w /\ v <= w)
  /\ (b !! k = Some v -> exists w, maxMap a b !! k = Some w /\ v <= w).
Proof.
  rewrite maxMap_lookup. split; intros Hk; rewrite Hk.
  - destruct (b !! k) as [y|]; simpl; eauto with lia.
  - simpl. eauto with lia.
Qed.

Lemma maxMap_disjoint (a b : gmap string Z) :
  nonneg b -> a ##ₘ b -> maxMap a b = a ∪ b.
Proof.
  intros Hb Hd. apply map_eq. intros k. rewrite maxMap_lookup.
  destruct (b !! k) as [y|] eqn:Eb; simpl.
  - assert (a !! k = None) as Ea by (by eapply map_disjoint_Some_r).
    rewrite Ea. simpl. pose proof (Hb k y Eb).
    rewrite (lookup_union_r a b k Ea), Eb. f_equal. lia.
  - destruct (a !! k) as [x|] eqn:Ea.
    + symmetry. by apply lookup_union_Some_l.
    + symmetry. by apply lookup_union_None.
Qed.

(** *** Sums *)

Lemma sumValues_insert_fresh (m : gmap string Z) (k : string) (v : Z) :
  m !! k = None -> sumValues (<[k := v]> m) = sumValues m + v.
Proof.
  intros Hk. unfold sumValues.
  rewrite map_fold_insert_L; [done| |done].
  intros. lia.
Qed.

(** Storing [v] under [k] moves the sum by the difference to what was
    stored before. *)
Lemma sumValues_insert (m : gmap string Z) (k : string) (v : Z) :
  sumValues (<[k := v]> m) = sumValues m - default 0 (m !! k) + v.
Proof.
  destruct (m !! k) as [old|] eqn:Hk; simpl.
  - rewrite <- (insert_delete_eq m k v).
    rewrite <- (insert_delete_id m k old Hk) at 2.
    rewrite !sumValues_insert_fresh by apply lookup_delete_eq. lia.
  - rewrite sumValues_insert_fresh by done. lia.
Qed.

Lemma sumValues_union (m1 m2 : gmap string Z) :
  m1 ##ₘ m2 -> sumValues (m1 ∪ m2) = sumValues m1 + sumValues m2.
Proof.
  induction m2 as [|k v m2 Hk IH] using map_ind; intros Hd.
  - rewrite (right_id_L ∅ (∪)). unfold sumValues at 3.
    rewrite map_fold_empty. lia.
  - apply map_disjoint_insert_r in Hd as [Hk1 Hd].
    rewrite <- insert_union_r by done.
    rewrite !sumValues_insert_fresh; [rewrite IH by done; lia|done|].
    by apply lookup_union_None.
Qed.

(** *** Counters whose updates stored integers *)

Lemma bump_keeps (k : string) (m m' : gmap string Z) :
  bump k m = Stored m' ->
  plainKeys m -> positive m -> plainKeys m' /\ positive m'.
Proof.
  unfold bump, or0. intros Hb Hp Hpos.
  destruct (m !! k) as [n|] eqn:E.
  - injection Hb as <-. rewrite numberOr0_id. split.
    + intros j. destruct (decide (k = j)) as [->|Hne].
      * intros _. apply Hp. by rewrite E.
      * rewrite lookup_insert_ne by done. apply Hp.
    + intros j v. destruct (decide (k = j)) as [->|Hne].
      * rewrite lookup_insert_eq. intros [= <-].
        pose proof (Hpos j n E). lia.
      * rewrite lookup_insert_ne by done. apply Hpos.
  - destruct (Js.member k) as [[]|] eqn:Ek; simplify_eq; [done|].
    split.
    + intros j. destruct (decide (k = j)) as [->|Hne]; [done|].
      rewrite lookup_insert_ne by done. apply Hp.
    + intros j v. destruct (decide (k = j)) as [->|Hne].
      * rewrite lookup_insert_eq. intros [= <-]. lia.
      * rewrite lookup_insert_ne by done. apply Hpos.
Qed.

(** [increment] and [decrement] store integers unless the node id is the
    name of a method of [Object.prototype] for which the map has no tally
    yet. *)
Lemma increment_decrement_store (c : t) :
  Js.member (localNodeId c) <> Some Js.Method ->
  (exists c', increment c = Stored c') /\ (exists c', decrement c = Stored c').
Proof.
  intros Hid. unfold increment, decrement, bump, or0.
  destruct (Js.member (localNodeId c)) as [[]|]; [done|..];
    split;
    try (destruct (increments c !! localNodeId c); by eauto);
    destruct (decrements c !! localNodeId c); by eauto.
Qed.

(** In a reachable counter no key is a name of [Object.prototype] and every
    tally is at least one. *)
Lemma reachable_invariant (c : t) :
  reachable c ->
  plainKeys (increments c) /\ plainKeys (decrements c)
  /\ positive (increments c) /\ positive (decrements c).
Proof.
  induction 1 as [id | c c' _ (Pi & Pd & Ni & Nd) Hop
                 | c c' _ (Pi & Pd & Ni & Nd) Hop
                 | c o c' _ (Pi & Pd & Ni & Nd) _ (Pi' & Pd' & Ni' & Nd') Hop].
  - simpl. repeat split; intros k; rewrite lookup_empty;
      try (by intros []); done.
  - unfold increment in Hop.
    destruct (bump (localNodeId c) (increments c)) as [m'|] eqn:Hb;
      [|done].
    injection Hop as <-. simpl.
    destruct (bump_keeps _ _ _ Hb Pi Ni). done.
  - unfold decrement in Hop.
    destruct (bump (localNodeId c) (decrements c)) as [m'|] eqn:Hb;
      [|done].
    injection Hop as <-. simpl.
    destruct (bump_keeps _ _ _ Hb Pd Nd). done.
  - rewrite merge_plain in Hop by done. injection Hop as <-. simpl.
    auto using plainKeys_maxMap, positive_maxMap.
Qed.

(** Between reachable counters [merge] stores integers, the two directions
    end with the same count, also when the second merge reads the receiver
    the first has updated, and a repeated merge changes nothing. *)
Lemma merge_reachable_converges (A B : t) :
  reachable A -> reachable B ->
  exists AB BA,
    merge A B = Stored AB /\ merge B A = Stored BA
    /\ getCount AB = getCount BA
    /\ merge B AB = Stored (mk (localNodeId B) (increments AB) (decrements AB))
    /\ merge AB B = Stored AB.
Proof.
  intros (PAi & PAd & NAi & NAd)%reachable_invariant
         (PBi & PBd & NBi & NBd)%reachable_invariant.
  apply positive_nonneg in NAi, NAd, NBi, NBd.
  rewrite (merge_plain A B), (merge_plain B A) by done.
  eexists _, _. split; [done|]. split; [done|]. split; [|split].
  - unfold getCount; simpl.
    by rewrite (maxMap_comm (increments A)), (maxMap_comm (decrements A)).
  - rewrite merge_plain by (simpl; by apply plainKeys_maxMap).
    simpl. by rewrite !maxMap_absorb.
  - rewrite merge_plain by done. simpl. by rewrite !maxMap_again.
Qed.

(** On a receiver without negative tallies and an argument without keys
    named like members of [Object.prototype], [merge] leaves under every key
    of either side the larger of the two tallies, a missing one counting as
    0, and under no other key anything. *)
Lemma merge_plain_elementwise_max (c other : t) (k : string) :
  plainKeys (increments other) -> plainKeys (decrements other) ->
  nonneg (increments c) ->
  exists c', merge c other = Stored c'
    /\ increments c' !! k
       = if decide (is_Some (increments c !! k)
                    \/ is_Some (increments other !! k))
         then Some (Z.max (default 0 (increments c !! k))
                          (default 0 (increments other !! k)))
         else None.
Proof.
  intros Hi Hd Hn. rewrite merge_plain by done. eexists. split; [done|].
  simpl. rewrite maxMap_lookup.
  destruct (increments c !! k) as [x|] eqn:Ec,
           (increments other !! k) as [y|] eqn:Eo; simpl.
  - done.
  - f_equal. pose proof (Hn k x Ec). lia.
  - done.
  - done.
Qed.

Ltac reach_alice :=
  apply (reach_increment Samples.alice1);
    [apply (reach_increment (new "alice"));
       [apply reach_new | vm_compute; reflexivity]
    | vm_compute; reflexivity].

Ltac reach_bob :=
  apply (reach_decrement Samples.bob1);
    [apply (reach_increment (new "bob"));
       [apply reach_new | vm_compute; reflexivity]
    | vm_compute; reflexivity].

(** C4 at a receiver that lacks the key ["constructor"] and an argument
    that holds tally 1 under it: the receiver's read finds the inherited
    member instead of nothing, and [merge] stores [NaN] under the key where
    the claim has [max(0, 1) = 1]. *)
Theorem merge_reads_inherited_member :
  let self := new "a" in
  let other := Samples.namedConstructor in
  increments self !! "constructor" = None
  /\ increments other !! "constructor" = Some 1
  /\ or0 (increments self) "constructor" = Inherited Js.Method
  /\ merge self other = Junked NotANumber.
Proof. vm_compute. repeat split. Qed.


(** *** Further properties of the counter *)

(** X1: on a counter built from fresh replicas by [increment], [decrement]
    and [merge] whose node id is not a name of [Object.prototype],
    [increment()] raises [getCount()] by exactly one and [decrement()]
    lowers it by exactly one, so an increment followed by a decrement leaves
    the count where it was. *)
Theorem increment_decrement_getCount (c : t) :
  reachable c ->
  Js.member (localNodeId c) = None ->
  exists up down both,
    increment c = Stored up /\ getCount up = getCount c + 1
    /\ decrement c = Stored down /\ getCount down = getCount c - 1
    /\ decrement up = Stored both /\ getCount both = getCount c.
Proof.
  intros _ Hid. unfold increment, decrement.
  rewrite !bump_plain by auto.
  eexists _, _, _.
  split; [reflexivity|].
  split; [unfold getCount; simpl; rewrite sumValues_insert; lia|].
  split; [reflexivity|].
  split; [unfold getCount; simpl; rewrite sumValues_insert; lia|].
  simpl. rewrite bump_plain by auto.
  split; [reflexivity|].
  unfold getCount; simpl. rewrite !sumValues_insert. lia.
Qed.

Lemma increment_decrement_getCount_alice :
  exists up down both,
    increment Samples.alice = Stored up
    /\ getCount up = getCount Samples.alice + 1
    /\ decrement Samples.alice = Stored down
    /\ getCount down = getCount Samples.alice - 1
    /\ decrement up = Stored both
    /\ getCount both = getCount Samples.alice.
Proof.
  apply (increment_decrement_getCount Samples.alice);
    [reach_alice | reflexivity].
Defined.

(** X2: merging a counter with a copy of itself changes nothing, whatever
    the tallies are. *)
Theorem merge_self (c : t) : merge c c = Stored c.
Proof.
  unfold merge.
  rewrite !mergeMap_spec by (intros k Hk; by left).
  rewrite !maxMap_same. by destruct c.
Qed.

(** X3: when no key of the argument is a name of [Object.prototype],
    [merge] stores integers, never removes a key and never lowers a tally:
    whatever either side stored under a key, in [increments] or in
    [decrements], the receiver afterwards stores at least as much under
    it. *)
Theorem merge_never_lowers (c other : t) :
  plainKeys (increments other) -> plainKeys (decrements other) ->
  exists c',
    merge c other = Stored c'
    /\ forall k v,
         (increments c !! k = Some v \/ increments other !! k = Some v ->
          exists w, increments c' !! k = Some w /\ v <= w)
         /\ (decrements c !! k = Some v \/ decrements other !! k = Some v ->
             exists w, decrements c' !! k = Some w /\ v <= w).
Proof.
  intros Hi Hd. rewrite merge_plain by done. eexists. split; [done|].
  intros k v. simpl.
  destruct (maxMap_upper_bound (increments c) (increments other) k v).
  destruct (maxMap_upper_bound (decrements c) (decrements other) k v).
  split; intros [H'|H']; auto.
Qed.

Lemma merge_never_lowers_alice_bob :
  exists c', merge Samples.alice Samples.bob = Stored c'
    /\ exists w, increments c' !! "alice" = Some w /\ 2 <= w.
Proof.
  destruct (merge_never_lowers Samples.alice Samples.bob)
    as (c' & Hm & Hb).
  - apply plainKeys_by_key, (bool_decide_unpack _). vm_compute. exact I.
  - apply plainKeys_by_key, (bool_decide_unpack _). vm_compute. exact I.
  - exists c'. split; [exact Hm|].
    apply (Hb "alice" 2). left. vm_compute. reflexivity.
Defined.

(** X4: on counters built from fresh replicas by [increment], [decrement]
    and [merge], merging stores integers and is associative, and the two
    directions of a merge end with the same [increments] and the same
    [decrements]. *)
Theorem merge_assoc_comm (a b c : t) :
  reachable a -> reachable b -> reachable c ->
  exists ab bc ba abc,
    merge a b = Stored ab /\ merge b c = Stored bc /\ merge b a = Stored ba
    /\ merge ab c = Stored abc /\ merge a bc = Stored abc
    /\ increments ab = increments ba
    /\ decrements ab = decrements ba.
Proof.
  intros (Pai & Pad & Nai & Nad)%reachable_invariant
         (Pbi & Pbd & Nbi & Nbd)%reachable_invariant
         (Pci & Pcd & Nci & Ncd)%reachable_invariant.
  apply positive_nonneg in Nai, Nad, Nbi, Nbd, Nci, Ncd.
  rewrite (merge_plain a b), (merge_plain b c), (merge_plain b a) by done.
  eexists _, _, _, _. do 3 (split; [done|]).
  rewrite !merge_plain by (simpl; auto using plainKeys_maxMap). simpl.
  split; [done|]. split; [|split].
  - by rewrite !maxMap_assoc.
  - by apply maxMap_comm.
  - by apply maxMap_comm.
Qed.

Lemma merge_assoc_comm_sample :
  exists ab bc ba abc,
    merge Samples.alice Samples.bob = Stored ab
    /\ merge Samples.bob Samples.bob1 = Stored bc
    /\ merge Samples.bob Samples.alice = Stored ba
    /\ merge ab Samples.bob1 = Stored abc
    /\ merge Samples.alice bc = Stored abc
    /\ increments ab = increments ba
    /\ decrements ab = decrements ba.
Proof.
  apply (merge_assoc_comm Samples.alice Samples.bob Samples.bob1).
  - reach_alice.
  - reach_bob.
  - apply (reach_increment (new "bob"));
      [apply reach_new | vm_compute; reflexivity].
Defined.

(** X5: when a counter merges in a reachable counter with which it shares
    no key, neither in [increments] nor in [decrements], the merge stores
    integers and the count after it is the sum of the two counts. *)
Theorem merge_disjoint_getCount (c other : t) :
  reachable other ->
  dom (increments c) ## dom (increments other) ->
  dom (decrements c) ## dom (decrements other) ->
  exists c', merge c other = Stored c'
             /\ getCount c' = getCount c + getCount other.
Proof.
  intros (Pi & Pd & Ni & Nd)%reachable_invariant
         Di%map_disjoint_dom Dd%map_disjoint_dom.
  apply positive_nonneg in Ni, Nd.
  rewrite merge_plain by done. eexists. split; [done|].
  unfold getCount; simpl.
  rewrite !maxMap_disjoint, !sumValues_union by done. lia.
Qed.

Lemma merge_disjoint_getCount_alice_bob :
  exists c', merge Samples.alice Samples.bob = Stored c'
             /\ getCount c' = getCount Samples.alice + getCount Samples.bob.
Proof.
  apply (merge_disjoint_getCount Samples.alice Samples.bob).
  - reach_bob.
  - apply (bool_decide_unpack _). vm_compute. exact I.
  - apply (bool_decide_unpack _). vm_compute. exact I.
Defined.

(** X6: a counter built from a fresh replica by [increment], [decrement] and
    [merge], every call having stored integers, holds no tally below one: a
    key appears in a map only once its node has been counted, and then with
    a positive tally. *)
Theorem reachable_tallies_positive (c : t) (k : string) (v : Z) :
  reachable c ->
  (increments c !! k = Some v -> 1 <= v)
  /\ (decrements c !! k = Some v -> 1 <= v).
Proof.
  intros (_ & _ & Hi & Hd)%reachable_invariant.
  split; [apply Hi | apply Hd].
Qed.

Lemma reachable_tallies_positive_bob :
  increments Samples.bob !! "bob" = Some 1 /\ 1 <= 1.
Proof.
  assert (H : increments Samples.bob !! "bob" = Some 1)
    by (vm_compute; reflexivity).
  split; [exact H|].
  destruct (reachable_tallies_positive Samples.bob "bob" 1) as [Hi _].
  - reach_bob.
  - exact (Hi H).
Defined.

(** X7: [fromJSON(toJSON(c))] is a copy of [c] with the same three fields,
    [toJSON(fromJSON(json))] gives back a snapshot that carries both maps,
    and a snapshot that lacks a map is read as if the map were empty, so a
    snapshot with only a node id is read as a fresh replica with count 0. *)
Theorem counter_json_round_trip (c : t) (id : string)
    (incs decs : gmap string Z) :
  fromJSON (toJSON c) = c
  /\ toJSON (fromJSON (mkState id (Some incs) (Some decs)))
     = mkState id (Some incs) (Some decs)
  /\ fromJSON (mkState id None (Some decs)) = construct id ∅ decs
  /\ fromJSON (mkState id (Some incs) None) = construct id incs ∅
  /\ fromJSON (mkState id None None) = new id
  /\ getCount (fromJSON (mkState id None None)) = 0.
Proof. destruct c. repeat split. Qed.

End PNCounterFacts.

(** ** Text RGA *)

Module TextRGAFacts.
Import TextRGA.

(** *** The order [sort] uses *)

Lemma compare_lt_trans (a : string) : forall b c,
  String.compare a b = Lt -> String.compare b c = Lt ->
  String.compare a c = Lt.
Proof.
  induction a as [|x a IH]; intros [|y b] [|z c]; simpl; try done.
  unfold Ascii.compare.
  destruct (N.compare_spec (N_of_ascii x) (N_of_ascii y)) as [E1|L1|G1],
           (N.compare_spec (N_of_ascii y) (N_of_ascii z)) as [E2|L2|G2],
           (N.compare_spec (N_of_ascii x) (N_of_ascii z)) as [E3|L3|G3];
    try done; try lia; eauto.
Qed.

Lemma idLe_cases (a b : string) :
  idLe a b <-> String.compare a b = Lt \/ a = b.
Proof.
  unfold idLe, String.leb. split.
  - destruct (String.compare a b) eqn:E; try done; [|by left].
    right. by apply String.compare_eq_iff.
  - intros [->| ->]; [done|].
    destruct (String.compare b b) eqn:E; try done.
    pose proof (String.compare_antisym b b) as H. rewrite E in H. done.
Qed.

#[local] Instance idLe_total : Total idLe.
Proof. intros a b. apply String.leb_total. Qed.

#[local] Instance idLe_antisymm : AntiSymm (=) idLe.
Proof. intros a b. apply String.leb_antisym. Qed.

#[local] Instance idLe_trans : Transitive idLe.
Proof.
  intros a b c [Hab| ->]%idLe_cases [Hbc| ->]%idLe_cases; apply idLe_cases;
    eauto using compare_lt_trans.
Qed.

Lemma elem_of_sortIds (x : string) (l : list string) :
  x ∈ sortIds l <-> x ∈ l.
Proof. unfold sortIds. by rewrite merge_sort_Permutation. Qed.

Lemma sortIds_NoDup (l : list string) : NoDup l -> NoDup (sortIds l).
Proof. unfold sortIds. by rewrite merge_sort_Permutation. Qed.

(** Sorting forgets the order in which distinct ids were collected. *)
Lemma sortIds_canonical (l1 l2 : list string) :
  NoDup l1 -> NoDup l2 -> (forall x, x ∈ l1 <-> x ∈ l2) ->
  sortIds l1 = sortIds l2.
Proof.
  intros H1 H2 Hel. unfold sortIds.
  apply (Sorted_unique idLe); try apply Sorted_merge_sort; try apply _.
  rewrite !merge_sort_Permutation. by apply NoDup_Permutation.
Qed.

(** A list that is already ascending and free of duplicates is a fixed point
    of [sort]. *)
Lemma sortIds_sorted (l : list string) :
  Sorted idLe l -> sortIds l = l.
Proof.
  intros Hl. unfold sortIds.
  apply (Sorted_unique idLe); try apply Sorted_merge_sort; try apply _; try done.
  apply merge_sort_Permutation.
Qed.

(** *** [merge], id by id *)

Lemma joinEntry_None_r (a : option Entry) : joinEntry a None = a.
Proof. by destruct a. Qed.

Lemma joinEntry_assoc (a b c : option Entry) :
  joinEntry (joinEntry a b) c = joinEntry a (joinEntry b c).
Proof.
  destruct a as [[]|], b as [[]|], c as [[]|]; simpl; try done.
  by rewrite orb_assoc.
Qed.

Lemma joinEntryAt_None_r (k : string) (a : option Entry) :
  joinEntryAt k a None = a.
Proof.
  destruct a; [done|]. unfold joinEntryAt. by destruct (Js.inherited k).
Qed.

Lemma joinEntryAt_plain (k : string) (a b : option Entry) :
  Js.inherited k = false -> joinEntryAt k a b = joinEntry a b.
Proof. intros H. unfold joinEntryAt. rewrite H. by destruct a. Qed.

(** The loop over [other.entries], key by key. *)
Lemma mergeEntries_lookupAt (mine theirs : gmap string Entry) (k : string) :
  mergeEntries mine theirs !! k = joinEntryAt k (mine !! k) (theirs !! k).
Proof.
  unfold mergeEntries. revert k.
  apply (map_fold_weak_ind (fun (r m : gmap string Entry) => forall k,
    r !! k = joinEntryAt k (mine !! k) (m !! k))).
  - intros k. by rewrite lookup_empty, joinEntryAt_None_r.
  - intros i x m r Hi IH k. unfold mergeEntry.
    pose proof (IH i) as Hri. rewrite Hi, joinEntryAt_None_r in Hri.
    rewrite Hri.
    destruct (decide (i = k)) as [->|Hne].
    + rewrite lookup_insert_eq.
      destruct (mine !! k) as [l|] eqn:Hm.
      * by rewrite lookup_insert_eq.
      * unfold joinEntryAt. destruct (Js.inherited k).
        -- by rewrite Hri.
        -- rewrite lookup_insert_eq. by destruct x.
    + rewrite (lookup_insert_ne m) by done.
      destruct (mine !! i) as [l|];
        [|destruct (Js.inherited i)];
        rewrite ?lookup_insert_ne by done; apply IH.
Qed.

(** When no key of the argument names a member of [Object.prototype], the
    loop joins the two maps key by key. *)
Lemma mergeEntries_lookup (mine theirs : gmap string Entry) (k : string) :
  plainIds theirs ->
  mergeEntries mine theirs !! k = joinEntry (mine !! k) (theirs !! k).
Proof.
  intros Hp. rewrite mergeEntries_lookupAt.
  destruct (theirs !! k) as [y|] eqn:E.
  - apply joinEntryAt_plain, Hp. by rewrite E.
  - by rewrite joinEntryAt_None_r, joinEntry_None_r.
Qed.

(** A key the receiver holds is joined as usual, whatever it names. *)
Lemma mergeEntries_lookup_own (mine theirs : gmap string Entry) (k : string) :
  is_Some (mine !! k) ->
  mergeEntries mine theirs !! k = joinEntry (mine !! k) (theirs !! k).
Proof. intros [l Hl]. by rewrite mergeEntries_lookupAt, Hl. Qed.

Lemma mergeEntries_dom (mine theirs : gmap string Entry) :
  plainIds theirs ->
  dom (mergeEntries mine theirs) = dom mine ∪ dom theirs.
Proof.
  intros Hp. apply set_eq. intros k.
  rewrite elem_of_union, !elem_of_dom, mergeEntries_lookup by done.
  destruct (mine !! k), (theirs !! k); simpl; split; eauto;
    intros [[]|[]]; eauto; done.
Qed.

Lemma plainIds_mergeEntries (mine theirs : gmap string Entry) :
  plainIds mine -> plainIds (mergeEntries mine theirs).
Proof.
  intros Hp k. rewrite mergeEntries_lookupAt. unfold joinEntryAt.
  destruct (mine !! k) as [l|] eqn:E.
  - intros _. apply Hp. by rewrite E.
  - destruct (Js.inherited k); [by intros []|done].
Qed.

(** [plainIds] can be checked key by key. *)
Lemma plainIds_by_key (es : gmap string Entry) :
  Forall (fun k => Js.inherited k = false) (elements (dom es)) ->
  plainIds es.
Proof.
  rewrite Forall_forall. intros H k Hk. apply H.
  by apply elem_of_elements, elem_of_dom.
Qed.

Lemma elem_of_keys (k : string) (es : gmap string Entry) :
  k ∈ keys es <-> k ∈ dom es.
Proof. unfold keys. rewrite dom_alt, elem_of_list_to_set. done. Qed.

Lemma elem_of_idSet (k : string) (mine theirs : list string)
    (es : gmap string Entry) :
  k ∈ idSet mine theirs es <-> k ∈ mine \/ k ∈ theirs \/ k ∈ dom es.
Proof.
  unfold idSet. by rewrite elem_of_remove_dups, !elem_of_app, elem_of_keys.
Qed.

Lemma elem_of_ids (k : string) (s : t) :
  k ∈ ids s <-> k ∈ order s \/ k ∈ dom (entries s).
Proof. unfold ids. by rewrite elem_of_union, elem_of_list_to_set. Qed.

(** The order [merge] leaves: the ids of the two orders and of the merged
    entries, sorted. *)
Lemma merge_order_entries (a b : t) :
  order (merge a b)
  = sortIds (elements (list_to_set (order a) ∪ list_to_set (order b)
                       ∪ dom (entries (merge a b)))).
Proof.
  simpl. apply sortIds_canonical.
  - apply NoDup_remove_dups.
  - apply NoDup_elements.
  - intros k.
    rewrite elem_of_idSet, elem_of_elements, !elem_of_union,
      !elem_of_list_to_set.
    tauto.
Qed.

(** It depends on the ids of the two sides only, when no key of the
    argument names a member of [Object.prototype]. *)
Lemma merge_order (a b : t) :
  plainIds (entries b) ->
  order (merge a b) = sortIds (elements (ids a ∪ ids b)).
Proof.
  intros Hp. simpl. apply sortIds_canonical.
  - apply NoDup_remove_dups.
  - apply NoDup_elements.
  - intros k.
    rewrite elem_of_idSet, mergeEntries_dom, elem_of_elements,
      !elem_of_union, !elem_of_ids by done.
    tauto.
Qed.

Lemma ids_merge (a b : t) :
  plainIds (entries b) -> ids (merge a b) = ids a ∪ ids b.
Proof.
  intros Hp. apply set_eq. intros k.
  rewrite elem_of_ids, merge_order, elem_of_sortIds, elem_of_elements by done.
  simpl. rewrite mergeEntries_dom, !elem_of_union, !elem_of_ids by done.
  tauto.
Qed.

(** An entry that only the argument holds under a name of
    [Object.prototype] is not copied; the id still gets into [order] when
    one of the two orders lists it. *)
Lemma merge_copies_no_entry_under_member_name :
  let s := merge Samples.hi Samples.holdsConstructor in
  entries Samples.holdsConstructor !! "constructor"
  = Some (mkEntry "x" false)
  /\ entries s !! "constructor" = None
  /\ order s = ["A:1"; "A:2"; "constructor"].
Proof. vm_compute. repeat split. Qed.

(** *** Merging along a plan *)

(** No state the plan starts from holds a key that names a member of
    [Object.prototype]. *)
Lemma plainIds_run (p : Plan) :
  Forall (fun s => plainIds (entries s)) (leaves p) ->
  plainIds (entries (run p)).
Proof.
  induction p as [s|l IHl r IHr]; simpl.
  - intros H. by inversion H.
  - intros [Hl _]%Forall_app. by apply plainIds_mergeEntries, IHl.
Qed.

Lemma ids_run (p : Plan) :
  Forall (fun s => plainIds (entries s)) (leaves p) ->
  ids (run p) = ⋃ (ids <$> leaves p).
Proof.
  induction p as [s|l IHl r IHr].
  - intros _. change (ids s = ⋃ [ids s]). by rewrite union_list_singleton_L.
  - simpl run. simpl leaves. intros [Hl Hr]%Forall_app.
    rewrite ids_merge by (by apply plainIds_run).
    by rewrite IHl, IHr, fmap_app, union_list_app_L.
Qed.

Lemma union_list_perm (Xs Ys : list (gset string)) :
  Xs ≡ₚ Ys -> ⋃ Xs = ⋃ Ys.
Proof.
  intros HP. apply set_eq. intros k. rewrite !elem_of_union_list.
  by setoid_rewrite HP.
Qed.

Lemma run_order (l r : Plan) :
  Forall (fun s => plainIds (entries s)) (leaves (Join l r)) ->
  order (run (Join l r))
  = sortIds (elements (⋃ (ids <$> leaves (Join l r)))).
Proof.
  simpl leaves. intros [Hl Hr]%Forall_app.
  simpl run. rewrite merge_order by (by apply plainIds_run).
  rewrite !ids_run by done.
  by rewrite fmap_app, union_list_app_L.
Qed.

Lemma foldr_joinEntry_app (k : string) (l1 l2 : list t) :
  foldr (fun s => joinEntry (entries s !! k)) None (l1 ++ l2)
  = joinEntry (foldr (fun s => joinEntry (entries s !! k)) None l1)
              (foldr (fun s => joinEntry (entries s !! k)) None l2).
Proof.
  induction l1 as [|s l1 IH]; simpl; [done|].
  by rewrite IH, joinEntry_assoc.
Qed.

(** What a plan leaves under an id: its leaves joined from left to
    right. *)
Lemma run_entries_lookup (p : Plan) (k : string) :
  Forall (fun s => plainIds (entries s)) (leaves p) ->
  entries (run p) !! k
  = foldr (fun s => joinEntry (entries s !! k)) None (leaves p).
Proof.
  induction p as [s|l IHl r IHr]; simpl.
  - by rewrite joinEntry_None_r.
  - intros [Hl Hr]%Forall_app.
    rewrite mergeEntries_lookup by (by apply plainIds_run).
    by rewrite IHl, IHr, foldr_joinEntry_app.
Qed.

Lemma joinEntry_swap (a b : t) (k : string) (acc : option Entry) :
  agree a b ->
  joinEntry (entries a !! k) (joinEntry (entries b !! k) acc)
  = joinEntry (entries b !! k) (joinEntry (entries a !! k) acc).
Proof.
  intros Hab.
  destruct (entries a !! k) as [x|] eqn:Ea, (entries b !! k) as [y|] eqn:Eb;
    try done.
  pose proof (Hab k x y Ea Eb) as Hc.
  destruct x as [cx dx], y as [cy dy], acc as [[cz dz]|]; simpl in *; subst;
    f_equal; f_equal; by destruct dx, dy; simpl.
Qed.

Lemma foldr_joinEntry_perm (k : string) (l1 l2 : list t) :
  l1 ≡ₚ l2 ->
  (forall a b, a ∈ l1 -> b ∈ l1 -> agree a b) ->
  foldr (fun s => joinEntry (entries s !! k)) None l1
  = foldr (fun s => joinEntry (entries s !! k)) None l2.
Proof.
  induction 1 as [|x l l' HP IH|x y l|l l' l'' HP1 IH1 HP2 IH2];
    intros Hag; simpl.
  - done.
  - rewrite IH; [done|]. intros a b Ha Hb. apply Hag; by right.
  - apply joinEntry_swap, Hag; set_solver.
  - rewrite IH1 by done. apply IH2.
    intros a b Ha Hb. apply Hag; by rewrite HP1.
Qed.

(** Plans over the same states, taken in any order and grouping, leave the
    same entries when the states agree pairwise, and the same order as soon
    as both plans merge at all. *)
Lemma run_same_data (p q : Plan) :
  leaves p ≡ₚ leaves q ->
  Forall (fun s => plainIds (entries s)) (leaves p) ->
  (forall a b, a ∈ leaves p -> b ∈ leaves p -> agree a b) ->
  entries (run p) = entries (run q)
  /\ ((exists l r, p = Join l r) -> (exists l r, q = Join l r) ->
      order (run p) = order (run q)).
Proof.
  intros HP Hpl Hag.
  assert (Hql : Forall (fun s => plainIds (entries s)) (leaves q))
    by (by rewrite <- HP).
  split.
  - apply map_eq. intros k. rewrite !run_entries_lookup by done.
    by apply foldr_joinEntry_perm.
  - intros (l & r & ->) (l' & r' & ->). rewrite !run_order by done.
    by rewrite (union_list_perm _ _ (fmap_Permutation ids _ _ HP)).
Qed.

Lemma agree_refl (a : t) : agree a a.
Proof. intros k x y Hx Hy. congruence. Qed.

Lemma agree_sym (a b : t) : agree a b -> agree b a.
Proof. intros H k x y Hx Hy. symmetry. eauto. Qed.

(** A check of [agree] that can be run: compare the characters under the
    ids both states hold. *)
Lemma agree_check (a b : t) :
  Forall (fun id => char <$> entries a !! id = char <$> entries b !! id)
    (elements (dom (entries a) ∩ dom (entries b))) ->
  agree a b.
Proof.
  intros H k x y Hx Hy. rewrite Forall_forall in H.
  specialize (H k). rewrite Hx, Hy in H. simpl in H.
  assert (Some (char x) = Some (char y)) as [= ->]; [|done].
  apply H. rewrite elem_of_elements, elem_of_intersection, !elem_of_dom.
  split; eauto.
Qed.

(** C3, as stated, on two replicas that were both created under node id
    ["a"] and each inserted one character: either receiver keeps its own
    character under the shared id ["a:1"], so the entries depend on who
    merges into whom. *)
Lemma merge_entries_follow_receiver :
  let X := Samples.forkX in
  let Y := Samples.forkY in
  let Z := Samples.dot in
  entries (merge (merge X Y) Z) !! "a:1" = Some (mkEntry "x" false)
  /\ entries (merge (merge Y X) Z) !! "a:1" = Some (mkEntry "y" false)
  /\ entries (merge (merge X Y) Z) <> entries (merge (merge Y X) Z).
Proof.
  intros X Y Z.
  assert (H1 : entries (merge (merge X Y) Z) !! "a:1"
               = Some (mkEntry "x" false)) by (vm_compute; reflexivity).
  assert (H2 : entries (merge (merge Y X) Z) !! "a:1"
               = Some (mkEntry "y" false)) by (vm_compute; reflexivity).
  split; [exact H1|]. split; [exact H2|].
  intros E. rewrite E, H2 in H1. discriminate H1.
Qed.

(** C3 (amended): for three states [X], [Y], [Z] none of which has an entry
    under a name of [Object.prototype] and that agree pairwise on the
    character of every id they share, any two ways of merging the three, in
    any order and any grouping, end with the same [entries] and the same
    [order]. *)
Theorem merge_any_order_any_grouping (X Y Z : t) (p q : Plan) :
  plainIds (entries X) -> plainIds (entries Y) -> plainIds (entries Z) ->
  agree X Y -> agree Y Z -> agree X Z ->
  leaves p ≡ₚ [X; Y; Z] -> leaves q ≡ₚ [X; Y; Z] ->
  entries (run p) = entries (run q) /\ order (run p) = order (run q).
Proof.
  intros PX PY PZ HXY HYZ HXZ Hp Hq.
  assert (HJ : forall r, leaves r ≡ₚ [X; Y; Z] -> exists l r', r = Join l r').
  { intros [s|l r'] Hr; [|eauto].
    apply Permutation_length in Hr. discriminate. }
  destruct (run_same_data p q) as [He Ho].
  - by rewrite Hp, Hq.
  - rewrite Hp. repeat constructor; done.
  - intros a b. rewrite !Hp, !elem_of_cons, !elem_of_nil.
    intros [->|[->|[->|[]]]] [->|[->|[->|[]]]];
      auto using agree_refl, agree_sym.
  - split; [done|]. apply Ho; by apply HJ.
Qed.

Lemma merge_any_order_any_grouping_sample :
  let X := Samples.hi in
  let Y := Samples.hiStruck in
  let Z := Samples.bang in
  entries (merge (merge X Y) Z) = entries (merge Z (merge Y X))
  /\ order (merge (merge X Y) Z) = order (merge Z (merge Y X)).
Proof.
  intros X Y Z.
  apply (merge_any_order_any_grouping X Y Z
           (Join (Join (Leaf X) (Leaf Y)) (Leaf Z))
           (Join (Leaf Z) (Join (Leaf Y) (Leaf X)))).
  - apply plainIds_by_key, (bool_decide_unpack _). vm_compute. exact I.
  - apply plainIds_by_key, (bool_decide_unpack _). vm_compute. exact I.
  - apply plainIds_by_key, (bool_decide_unpack _). vm_compute. exact I.
  - apply agree_check. apply (bool_decide_unpack _). vm_compute. exact I.
  - apply agree_check. apply (bool_decide_unpack _). vm_compute. exact I.
  - apply agree_check. apply (bool_decide_unpack _). vm_compute. exact I.
  - simpl. reflexivity.
  - symmetry. apply (Permutation_rev [X; Y; Z]).
Defined.

(** *** Merging a state into itself *)

Lemma mergeEntries_same (es : gmap string Entry) : mergeEntries es es = es.
Proof.
  apply map_eq. intros k. rewrite mergeEntries_lookupAt.
  destruct (es !! k) as [[c d]|] eqn:E; simpl.
  - by rewrite orb_diag.
  - unfold joinEntryAt. by destruct (Js.inherited k).
Qed.

Lemma joinEntryAt_again (k : string) (a b : option Entry) :
  joinEntryAt k (joinEntryAt k a b) b = joinEntryAt k a b.
Proof.
  unfold joinEntryAt.
  destruct a as [[c []]|], b as [[c' []]|], (Js.inherited k); done.
Qed.

Lemma orZero_id (n : Z) : orZero n = n.
Proof. unfold orZero. destruct (Z.eqb_spec n 0); congruence. Qed.

Lemma state_eq (a b : t) :
  localNodeId a = localNodeId b -> localCounter a = localCounter b ->
  entries a = entries b -> order a = order b ->
  onInsert a = onInsert b -> onDelete a = onDelete b -> a = b.
Proof. destruct a, b; simpl; congruence. Qed.

(** A second merge of the same argument changes nothing. *)
Lemma merge_again (x y : t) : merge (merge x y) y = merge x y.
Proof.
  apply state_eq; try done.
  - simpl. rewrite !orZero_id. lia.
  - apply map_eq. intros k. simpl.
    by rewrite !mergeEntries_lookupAt, joinEntryAt_again.
  - assert (He : entries (merge (merge x y) y) = entries (merge x y)).
    { apply map_eq. intros k. simpl.
      by rewrite !mergeEntries_lookupAt, joinEntryAt_again. }
    rewrite (merge_order_entries (merge x y) y), He.
    rewrite (merge_order_entries x y) at 2.
    apply sortIds_canonical; try apply NoDup_elements.
    intros k.
    rewrite !elem_of_elements, !elem_of_union, !elem_of_list_to_set,
      (merge_order_entries x y), elem_of_sortIds, elem_of_elements,
      !elem_of_union, !elem_of_list_to_set.
    tauto.
Qed.

(** A state whose [order] is already the sorted list of its ids is left as
    it is by a merge with a copy of itself. *)
Lemma merge_same_when_sorted (x : t) :
  order x = sortIds (elements (ids x)) -> merge x x = x.
Proof.
  intros Hx. apply state_eq; try done.
  - simpl. rewrite orZero_id. lia.
  - apply mergeEntries_same.
  - rewrite merge_order_entries. etrans; [|symmetry; exact Hx].
    f_equal. f_equal. apply set_eq. intros k. simpl.
    rewrite mergeEntries_same, !elem_of_union, elem_of_ids,
      !elem_of_list_to_set.
    tauto.
Qed.

(** C1 at the state [order = ["A:2", "A:1"]] that two inserts at index 0
    leave: merging it with a copy of itself keeps the entries but re-sorts
    [order] into [["A:1", "A:2"]], and [getText()] turns from ["ba"] into
    ["ab"]. *)
Theorem merge_with_copy_reorders :
  let x := Samples.prepended in
  order x = ["A:2"; "A:1"]
  /\ getText x = "ba"
  /\ entries (merge x x) = entries x
  /\ order (merge x x) = ["A:1"; "A:2"]
  /\ getText (merge x x) = "ab"
  /\ merge x x <> x.
Proof.
  intros x.
  assert (H1 : order x = ["A:2"; "A:1"]) by (vm_compute; reflexivity).
  assert (H2 : order (merge x x) = ["A:1"; "A:2"])
    by (vm_compute; reflexivity).
  split; [exact H1|].
  split; [vm_compute; reflexivity|].
  split; [apply mergeEntries_same|].
  split; [exact H2|].
  split; [vm_compute; reflexivity|].
  intros E. rewrite E, H1 in H2. discriminate H2.
Qed.

(** Typing ten characters in a row runs into the same: the tenth id
    ["A:10"] sorts before ["A:2"], so a merge with a copy moves the last
    character behind the first. *)
Lemma merge_with_copy_reorders_typed :
  let x := Samples.typed in
  getText x = "abcdefghij" /\ getText (merge x x) = "ajbcdefghi".
Proof. vm_compute. split; reflexivity. Qed.

(** C2 at the state of C1, which [insertAt] alone reaches from a fresh
    replica: its [order] is [["A:2", "A:1"]], not the ascending sort
    [["A:1", "A:2"]] of its ids. *)
Theorem insertAt_leaves_order_unsorted :
  let x := Samples.prepended in
  reachable x
  /\ order x = ["A:2"; "A:1"]
  /\ sortIds (order x) = ["A:1"; "A:2"]
  /\ ~ Sorted idLe (order x).
Proof.
  intros x.
  assert (H1 : order x = ["A:2"; "A:1"]) by (vm_compute; reflexivity).
  assert (H2 : sortIds (order x) = ["A:1"; "A:2"])
    by (vm_compute; reflexivity).
  split; [apply reach_insertAt, reach_insertAt, reach_new|].
  split; [exact H1|].
  split; [exact H2|].
  intros Hs%sortIds_sorted. rewrite Hs, H1 in H2. discriminate H2.
Qed.

(** *** [insertAt]: the argument check *)

(** C6: [insertAt(index, char)] throws if and only if [char] is not a string
    of length one, and a call that throws leaves the object as it was and
    calls no handler. *)
Theorem insertAt_throws_iff_not_single_char (index : Z) (c : JsValue)
    (s : t) :
  (threw (insertAt index c s) <-> ~ isSingleCharString c)
  /\ (threw (insertAt index c s) ->
      after (insertAt index c s) = s /\ fired (insertAt index c s) = []).
Proof.
  unfold threw, isSingleCharString.
  destruct c as [| |b|n|ch|];
    try (split; [split; [intros _ (ch & [=] & _) | simpl; eauto]
                | simpl; auto]).
  unfold insertAt.
  destruct (Nat.eqb_spec (String.length ch) 1) as [Hlen|Hlen]; simpl.
  - split; [split|].
    + intros (m & [=]).
    + intros []. eauto.
    + intros (m & [=]).
  - split; [split|]; eauto.
    intros _ (ch' & [= <-] & Hlen'). done.
Qed.

Lemma insertAt_throws_on_two_chars :
  threw (insertAt 0 (JsString "ab") Samples.hi)
  /\ after (insertAt 0 (JsString "ab") Samples.hi) = Samples.hi
  /\ fired (insertAt 0 (JsString "ab") Samples.hi) = [].
Proof.
  destruct (insertAt_throws_iff_not_single_char 0 (JsString "ab") Samples.hi)
    as [Hiff Hfail].
  assert (Ht : threw (insertAt 0 (JsString "ab") Samples.hi)).
  { apply Hiff. intros (ch & [= <-] & Hlen). discriminate Hlen. }
  split; [exact Ht | exact (Hfail Ht)].
Defined.

(** *** [deleteAt] *)

Lemma visibleIds_lookup_lt (s : t) (index : Z) :
  0 <= index < Z.of_nat (length (visibleIds s)) ->
  exists id, visibleIds s !! Z.to_nat index = Some id.
Proof.
  intros H. apply lookup_lt_is_Some_2. lia.
Qed.

(** C8, as stated, at a state whose [order] lists an id without an entry:
    index 0 is in range, yet the call changes nothing, no [deleted] flag is
    set and the registered handler is not called. *)
Lemma deleteAt_skips_id_without_entry :
  let s := Samples.dangling in
  0 <= 0 < Z.of_nat (length (visibleIds s))
  /\ visibleIds s !! Z.to_nat 0 = Some "B:7"
  /\ after (deleteAt 0 s) = s
  /\ fired (deleteAt 0 s) = []
  /\ deleted <$> entries (after (deleteAt 0 s)) !! "B:7" <> Some true.
Proof. vm_compute. repeat split; try lia; discriminate. Qed.

(** C8 (amended): [deleteAt(index)] never throws and never changes [order]
    or the set of keys of [entries].  With [index] outside the visible range
    it changes nothing and calls no handler.  With [index] in range and an
    entry stored under the id at that visible position, that entry's
    [deleted] flag becomes [true] and [onDelete], if registered, is called
    once; when no entry is stored under that id and the id names no member
    of [Object.prototype], the call changes nothing and calls no handler. *)
Theorem deleteAt_tombstones_in_place (index : Z) (s : t) :
  outcome (deleteAt index s) = Return tt
  /\ order (after (deleteAt index s)) = order s
  /\ dom (entries (after (deleteAt index s))) = dom (entries s)
  /\ (index < 0 \/ Z.of_nat (length (visibleIds s)) <= index ->
      after (deleteAt index s) = s /\ fired (deleteAt index s) = [])
  /\ (0 <= index < Z.of_nat (length (visibleIds s)) ->
      exists id,
        visibleIds s !! Z.to_nat index = Some id
        /\ match entries s !! id with
           | Some entry =>
               entries (after (deleteAt index s))
                 = <[id := mkEntry (char entry) true]> (entries s)
               /\ fired (deleteAt index s)
                  = (if onDelete s then [DeleteEvent index id] else [])
           | None =>
               Js.inherited id = false ->
               after (deleteAt index s) = s /\ fired (deleteAt index s) = []
           end).
Proof.
  unfold deleteAt.
  destruct (Z.ltb_spec index 0) as [Hneg|Hnn]; simpl.
  { do 4 (split; [done|]). intros ?. lia. }
  destruct (Z.geb_spec index (Z.of_nat (length (visibleIds s))))
    as [Hge|Hlt]; simpl.
  { do 4 (split; [done|]). intros ?. lia. }
  destruct (visibleIds_lookup_lt s index) as [id Hid]; [lia|].
  rewrite Hid.
  destruct (entries s !! id) as [entry|] eqn:He; simpl.
  - do 2 (split; [done|]). split.
    { apply elem_of_dom_2 in He. rewrite dom_insert_L.
      apply set_eq. intros k. rewrite elem_of_union, elem_of_singleton.
      split; [intros [->|?]; done | auto]. }
    split; [intros [?|?]; lia|].
    intros _. exists id. by rewrite He.
  - assert (Hs : after (if Js.inherited id
                         then mkRun (Return tt) s
                                (MemberWrite id
                                   :: (if onDelete s
                                       then [DeleteEvent index id] else []))
                         else mkRun (Return tt) s []) = s)
      by (by destruct (Js.inherited id)).
    split; [by destruct (Js.inherited id)|].
    split; [by rewrite Hs|]. split; [by rewrite Hs|].
    split; [intros [?|?]; lia|].
    intros _. exists id. rewrite He. split; [done|].
    by intros ->.
Qed.

(** What the amended C8 leaves out: under an id without an entry that names
    a member of [Object.prototype], [deleteAt] writes the flag on that
    member and calls the handler; the object itself stays as it is. *)
Lemma deleteAt_writes_on_inherited_member :
  let s := Samples.listsConstructorHandled in
  visibleIds s !! Z.to_nat 0 = Some "constructor"
  /\ entries s !! "constructor" = None
  /\ after (deleteAt 0 s) = s
  /\ fired (deleteAt 0 s)
     = [MemberWrite "constructor"; DeleteEvent 0 "constructor"].
Proof. vm_compute. repeat split. Qed.

Lemma deleteAt_tombstones_in_place_sample :
  outcome (deleteAt 0 Samples.hi) = Return tt
  /\ order (after (deleteAt 0 Samples.hi)) = ["A:1"; "A:2"]
  /\ deleted <$> entries (after (deleteAt 0 Samples.hi)) !! "A:1" = Some true
  /\ after (deleteAt 9 Samples.hi) = Samples.hi.
Proof.
  destruct (deleteAt_tombstones_in_place 0 Samples.hi)
    as (Hout & Hord & _ & _ & Hin).
  destruct (deleteAt_tombstones_in_place 9 Samples.hi)
    as (_ & _ & _ & Hfar & _).
  split; [exact Hout|].
  split; [rewrite Hord; vm_compute; reflexivity|].
  split.
  - destruct Hin as (id & Hid & Hent);
      [vm_compute; split; [discriminate | reflexivity]|].
    assert (id = "A:1") as -> by (vm_compute in Hid; congruence).
    assert (He : entries Samples.hi !! "A:1" = Some (mkEntry "H" false))
      by (vm_compute; reflexivity).
    rewrite He in Hent. destruct Hent as [-> _].
    by rewrite lookup_insert_eq.
  - apply Hfar. right. vm_compute. discriminate.
Defined.

(** *** [getText] *)

Lemma append_cons (c : ascii) (a b : string) :
  String c a +:+ b = String c (a +:+ b).
Proof. reflexivity. Qed.

Lemma append_nil_r (a : string) : a +:+ "" = a.
Proof. induction a as [|c a IH]; [done|]. by rewrite append_cons, IH. Qed.

Lemma append_assoc (a b c : string) : (a +:+ b) +:+ c = a +:+ (b +:+ c).
Proof.
  induction a as [|x a IH]; [done|]. by rewrite !append_cons, IH.
Qed.

Lemma concat_cons (x : string) (xs : list string) :
  String.concat "" (x :: xs) = x +:+ String.concat "" xs.
Proof. destruct xs; simpl; [by rewrite append_nil_r | done]. Qed.

Lemma appendVisible_shown (es : gmap string Entry) (result id : string) :
  appendVisible es result id = result +:+ default "" (shown es id).
Proof.
  unfold appendVisible, shown.
  destruct (es !! id) as [[c []]|]; [| |destruct (Js.inherited id)];
    simpl; by rewrite ?append_nil_r.
Qed.

(** The loop of [getText], started from any [result]. *)
Lemma getText_loop_shown (es : gmap string Entry) (l : list string)
    (result : string) :
  fold_left (appendVisible es) l result
  = result +:+ String.concat "" (omap (shown es) l).
Proof.
  revert result. induction l as [|id l IH]; intros result.
  - simpl. by rewrite append_nil_r.
  - simpl fold_left. rewrite IH, appendVisible_shown.
    change (omap (shown es) (id :: l))
      with (match shown es id with
            | Some c => c :: omap (shown es) l
            | None => omap (shown es) l
            end).
    destruct (shown es id) as [c|].
    + change (default "" (Some c)) with c.
      by rewrite concat_cons, append_assoc.
    + change (default "" (@None string)) with "". by rewrite append_nil_r.
Qed.

Lemma getText_shown (s : t) :
  getText s = String.concat "" (omap (shown (entries s)) (order s)).
Proof. unfold getText. by rewrite getText_loop_shown. Qed.

Lemma omap_ext_in (f g : string -> option string) (l : list string) :
  (forall x, x ∈ l -> f x = g x) -> omap f l = omap g l.
Proof.
  induction l as [|x l IH]; intros H; [done|].
  change (omap f (x :: l))
    with (match f x with Some c => c :: omap f l | None => omap f l end).
  change (omap g (x :: l))
    with (match g x with Some c => c :: omap g l | None => omap g l end).
  rewrite (H x) by left.
  rewrite IH by (intros y Hy; apply H; by right). done.
Qed.

Lemma omap_filter_ne (f : string -> option string) (id : string)
    (l : list string) :
  f id = None ->
  omap f (List.filter (fun x => negb (String.eqb x id)) l) = omap f l.
Proof.
  intros Hid. induction l as [|x l IH]; [done|].
  simpl List.filter.
  change (omap f (x :: l))
    with (match f x with Some c => c :: omap f l | None => omap f l end).
  destruct (String.eqb_spec x id) as [->|Hne]; simpl negb; cbv iota.
  - by rewrite IH, Hid.
  - change (omap f (x :: List.filter (fun x => negb (String.eqb x id)) l))
      with (match f x with
            | Some c =>
                c :: omap f (List.filter (fun x => negb (String.eqb x id)) l)
            | None => omap f (List.filter (fun x => negb (String.eqb x id)) l)
            end).
    by rewrite IH.
Qed.

(** Over ids of which those without an entry name no member of
    [Object.prototype], the loop concatenates the characters of the entries
    that are not deleted. *)
Lemma getText_loop (es : gmap string Entry) (l : list string)
    (result : string) :
  (forall id, id ∈ l -> es !! id = None -> Js.inherited id = false) ->
  fold_left (appendVisible es) l result
  = result +:+ String.concat "" (omap (liveChar es) l).
Proof.
  intros Hl. rewrite getText_loop_shown. f_equal. f_equal.
  apply omap_ext_in. intros id Hid. unfold shown, liveChar.
  destruct (es !! id) eqn:E; [done|]. by rewrite (Hl id Hid E).
Qed.

Lemma omap_liveChar_cons (es : gmap string Entry) (id : string)
    (l : list string) :
  omap (liveChar es) (id :: l)
  = match liveChar es id with
    | Some c => c :: omap (liveChar es) l
    | None => omap (liveChar es) l
    end.
Proof. reflexivity. Qed.

Lemma liveChar_filter_hasEntry (es : gmap string Entry) (l : list string) :
  omap (liveChar es) (List.filter (hasEntry es) l) = omap (liveChar es) l.
Proof.
  induction l as [|id l IH]; [done|].
  simpl List.filter. rewrite (omap_liveChar_cons es id l).
  destruct (hasEntry es id) eqn:Hh.
  - by rewrite omap_liveChar_cons, IH.
  - rewrite IH. unfold hasEntry in Hh. unfold liveChar at 2.
    by destruct (es !! id).
Qed.

(** An id that only the argument's [order] mentions is carried into the
    receiver's [order], still without an entry. *)
Lemma merge_keeps_id_without_entry (s other : t) (id : string) :
  id ∈ order other ->
  entries s !! id = None -> entries other !! id = None ->
  id ∈ order (merge s other) /\ entries (merge s other) !! id = None.
Proof.
  intros Hin Hs Ho. simpl. split.
  - rewrite elem_of_sortIds, elem_of_idSet. auto.
  - by rewrite mergeEntries_lookupAt, Hs, Ho, joinEntryAt_None_r.
Qed.

(** On a state whose ids without an entry name no member of
    [Object.prototype], [getText()] returns the characters of the ids that
    have an entry which is not deleted, concatenated in the order of
    [order]; the ids without an entry contribute nothing, the result is the
    same as with those ids removed from [order]. *)
Lemma getText_skips_plain_ids_without_entry (s : t) :
  (forall id, id ∈ order s -> entries s !! id = None ->
              Js.inherited id = false) ->
  getText s = String.concat "" (omap (liveChar (entries s)) (order s))
  /\ getText s
     = getText (withOrder s (List.filter (hasEntry (entries s)) (order s))).
Proof.
  intros Hs.
  assert (H1 : getText s
            = String.concat "" (omap (liveChar (entries s)) (order s))).
  { unfold getText. by rewrite getText_loop. }
  split; [exact H1|]. rewrite H1. unfold getText, withOrder. simpl.
  rewrite getText_loop.
  - by rewrite liveChar_filter_hasEntry.
  - intros id [_ Hh]%list_elem_of_In%filter_In He.
    unfold hasEntry in Hh. by rewrite He in Hh.
Qed.

(** C10 at the state [merge] leaves when the argument's [order] lists
    ["constructor"] and neither side has an entry under it: the id is in
    [order] without an entry, the characters of the ids with a non-deleted
    entry are ["H"] and ["i"], and [getText()] returns ["Hiundefined"]. *)
Theorem getText_appends_undefined_for_member_name :
  let s := merge Samples.hi Samples.listsConstructor in
  order s = ["A:1"; "A:2"; "constructor"]
  /\ entries s !! "constructor" = None
  /\ omap (liveChar (entries s)) (order s) = ["H"; "i"]
  /\ getText s = "Hiundefined"
  /\ getText s <> String.concat "" (omap (liveChar (entries s)) (order s)).
Proof.
  intros s.
  assert (H1 : getText s = "Hiundefined") by (vm_compute; reflexivity).
  assert (H2 : omap (liveChar (entries s)) (order s) = ["H"; "i"])
    by (vm_compute; reflexivity).
  split; [vm_compute; reflexivity|].
  split; [vm_compute; reflexivity|].
  split; [exact H2|]. split; [exact H1|].
  rewrite H1, H2. discriminate.
Qed.

(** *** [insertAt]: where the new id lands *)

Lemma includes_spec (l : list string) (id : string) :
  includes l id = true <-> id ∈ l.
Proof.
  unfold includes. rewrite existsb_exists. split.
  - intros (x & Hx & Heq). apply String.eqb_eq in Heq as ->.
    by apply list_elem_of_In.
  - intros Hin. exists id. split; [by apply list_elem_of_In|].
    by apply String.eqb_eq.
Qed.

(** Once [visiblePos] has passed [clampedIndex] the loop only copies. *)
Lemma spliceLoop_past (es : gmap string Entry) (id : string) (k : Z)
    (ord acc : list string) (pos : Z) :
  k < pos ->
  fold_left (spliceStep es id k) ord (acc, pos)
  = (acc ++ ord, pos + Z.of_nat (length (List.filter (isLive es) ord))).
Proof.
  revert acc pos. induction ord as [|x ord IH]; intros acc pos Hk.
  - simpl. by rewrite app_nil_r, Z.add_0_r.
  - simpl fold_left. simpl List.filter.
    destruct (isLive es x).
    + destruct (Z.eqb_spec pos k); [lia|].
      rewrite IH by lia. rewrite <- app_assoc. simpl length. f_equal. lia.
    + rewrite IH by lia. by rewrite <- app_assoc.
Qed.

(** The loop of [insertAt], from any point at or before [clampedIndex]. *)
Lemma spliceLoop_spec (es : gmap string Entry) (id : string) (k : Z)
    (ord acc : list string) (pos : Z) :
  pos <= k ->
  fold_left (spliceStep es id k) ord (acc, pos)
  = (acc ++ spliceAt es id (Z.to_nat (k - pos)) ord,
     pos + Z.of_nat (length (List.filter (isLive es) ord))).
Proof.
  revert acc pos. induction ord as [|x ord IH]; intros acc pos Hk.
  - simpl. by rewrite app_nil_r, Z.add_0_r.
  - simpl fold_left. simpl List.filter.
    simpl spliceAt.
    destruct (isLive es x).
    + destruct (Z.eqb_spec pos k) as [->|Hne].
      * rewrite spliceLoop_past by lia. rewrite Z.sub_diag. simpl.
        rewrite <- !app_assoc. simpl. f_equal. lia.
      * rewrite IH by lia.
        replace (Z.to_nat (k - pos)) with (S (Z.to_nat (k - (pos + 1))))
          by lia.
        rewrite <- app_assoc. simpl length. f_equal. lia.
    + rewrite IH by lia. by rewrite <- app_assoc.
Qed.

Lemma spliceAt_hit (es : gmap string Entry) (id : string)
    (ord : list string) (j : nat) :
  (j < length (List.filter (isLive es) ord))%nat ->
  exists pre target post,
    ord = pre ++ target :: post
    /\ isLive es target = true
    /\ length (List.filter (isLive es) pre) = j
    /\ spliceAt es id j ord = pre ++ id :: target :: post.
Proof.
  revert j. induction ord as [|x ord IH]; intros j Hj; simpl in *; [lia|].
  destruct (isLive es x) eqn:Hx.
  - destruct j as [|j].
    + exists [], x, ord. by rewrite Hx.
    + simpl in Hj. destruct (IH j) as (pre & t & post & -> & Ht & Hn & Hs);
        [lia|].
      exists (x :: pre), t, post. simpl. rewrite Hx, Hs. simpl.
      auto with lia.
  - destruct (IH j Hj) as (pre & t & post & -> & Ht & Hn & Hs).
    exists (x :: pre), t, post. simpl. rewrite Hx, Hs. auto.
Qed.

Lemma spliceAt_miss (es : gmap string Entry) (id : string)
    (ord : list string) (j : nat) :
  (length (List.filter (isLive es) ord) <= j)%nat ->
  spliceAt es id j ord = ord.
Proof.
  revert j. induction ord as [|x ord IH]; intros j Hj; simpl in *; [done|].
  destruct (isLive es x).
  - destruct j as [|j]; simpl in Hj; [lia|]. rewrite IH; [done|lia].
  - by rewrite IH.
Qed.

(** [insertAt] on a one-character string, with the argument check and the
    id allocation already carried out. *)
Lemma insertAt_single_char (index : Z) (ch : string) (s : t) :
  String.length ch = 1%nat ->
  let id := localNodeId s +:+ ":" +:+ pretty (localCounter s + 1) in
  let k := clamp index (length (visibleIds s)) in
  let spliced := spliceAt (entries s) id (Z.to_nat k) (order s) in
  insertAt index (JsString ch) s
  = mkRun (Return id)
      (mk (localNodeId s) (localCounter s + 1)
          (<[id := mkEntry ch false]> (entries s))
          (if (k =? Z.of_nat (length (visibleIds s)))
              && negb (includes spliced id)
           then spliced ++ [id] else spliced)
          (onInsert s) (onDelete s))
      (if onInsert s then [InsertEvent k id ch] else []).
Proof.
  intros Hlen id k spliced. unfold insertAt. rewrite Hlen.
  simpl negb. cbv iota. unfold nextId. cbv zeta. cbv iota beta.
  unfold visibleIds, spliceLoop. simpl entries. simpl order.
  simpl localNodeId. simpl localCounter. simpl onInsert. simpl onDelete.
  rewrite spliceLoop_spec by (unfold clamp; lia).
  simpl fst. rewrite Z.sub_0_r. reflexivity.
Qed.

(** C7, as stated, at a state whose counter is behind the ids it holds: the
    allocated id ["A:1"] is already in [order], the clamped index equals the
    visible length 2, and [order] is left as it was instead of getting the
    id appended. *)
Lemma insertAt_does_not_append_known_id :
  let s := Samples.staleCounter in
  outcome (insertAt 2 (JsString "z") s) = Return "A:1"
  /\ clamp 2 (length (visibleIds s)) = Z.of_nat (length (visibleIds s))
  /\ order (after (insertAt 2 (JsString "z") s)) = ["A:1"; "B:1"]
  /\ order (after (insertAt 2 (JsString "z") s)) <> order s ++ ["A:1"].
Proof. vm_compute. repeat split; discriminate. Qed.

(** C7 (amended): a call [insertAt(index, char)] with a one-character
    string returns the id built from [localNodeId] and [localCounter + 1];
    the index [k] it works with (and reports to [onInsert]) is [index]
    clamped into [0 .. visibleLength].  When [k] is below the visible
    length, [order] becomes [pre ++ id :: target :: post], where
    [order = pre ++ target :: post] before the call, [target] is visible and
    exactly [k] ids of [pre] are visible.  When [k] equals the visible
    length, [id] is appended at the end of [order] if [order] does not
    contain it yet, and [order] is left as it was if it does. *)
Theorem insertAt_splices_at_clamped_index (index : Z) (ch : string)
    (s : t) :
  String.length ch = 1%nat ->
  exists id k,
    id = localNodeId s +:+ ":" +:+ pretty (localCounter s + 1)
    /\ outcome (insertAt index (JsString ch) s) = Return id
    /\ fired (insertAt index (JsString ch) s)
       = (if onInsert s then [InsertEvent k id ch] else [])
    /\ 0 <= k <= Z.of_nat (length (visibleIds s))
    /\ (index < 0 -> k = 0)
    /\ (0 <= index <= Z.of_nat (length (visibleIds s)) -> k = index)
    /\ (Z.of_nat (length (visibleIds s)) < index ->
        k = Z.of_nat (length (visibleIds s)))
    /\ (k < Z.of_nat (length (visibleIds s)) ->
        exists pre target post,
          order s = pre ++ target :: post
          /\ isLive (entries s) target = true
          /\ Z.of_nat (length (List.filter (isLive (entries s)) pre)) = k
          /\ order (after (insertAt index (JsString ch) s))
             = pre ++ id :: target :: post)
    /\ (k = Z.of_nat (length (visibleIds s)) -> id ∉ order s ->
        order (after (insertAt index (JsString ch) s)) = order s ++ [id])
    /\ (k = Z.of_nat (length (visibleIds s)) -> id ∈ order s ->
        order (after (insertAt index (JsString ch) s)) = order s).
Proof.
  intros Hlen.
  pose proof (insertAt_single_char index ch s Hlen) as E. cbv zeta in E.
  rewrite E. clear E. simpl.
  set (id := localNodeId s +:+ ":" +:+ pretty (localCounter s + 1)).
  set (n := length (visibleIds s)).
  set (k := clamp index n).
  exists id, k.
  assert (Hk : 0 <= k <= Z.of_nat n) by (unfold k, clamp; lia).
  do 4 (split; [done|]).
  split; [unfold k, clamp; lia|].
  split; [unfold k, clamp; lia|].
  split; [unfold k, clamp; lia|].
  split; [|split].
  - intros Hlt. destruct (Z.eqb_spec k (Z.of_nat n)) as [|_]; [lia|].
    simpl.
    destruct (spliceAt_hit (entries s) id (order s) (Z.to_nat k))
      as (pre & target & post & Hord & Hlive & Hcnt & Hsp).
    { fold (visibleIds s). fold n. lia. }
    exists pre, target, post. repeat split; try done. lia.
  - intros Hkn Hnew. rewrite Hkn, Z.eqb_refl.
    rewrite spliceAt_miss by (fold (visibleIds s); fold n; lia).
    destruct (includes (order s) id) eqn:Hinc; [|done].
    by apply includes_spec in Hinc.
  - intros Hkn Hold. rewrite Hkn, Z.eqb_refl.
    rewrite spliceAt_miss by (fold (visibleIds s); fold n; lia).
    apply includes_spec in Hold. by rewrite Hold.
Qed.

Lemma insertAt_splices_at_clamped_index_sample :
  outcome (insertAt 5 (JsString "!") Samples.hi) = Return "A:3"
  /\ order (after (insertAt 5 (JsString "!") Samples.hi))
     = ["A:1"; "A:2"; "A:3"].
Proof.
  destruct (insertAt_splices_at_clamped_index 5 "!" Samples.hi)
    as (id & k & Hid & Hout & _ & _ & _ & _ & Hbig & _ & Happ & _);
    [reflexivity|].
  assert (Hid' : id = "A:3") by (rewrite Hid; vm_compute; reflexivity).
  subst id. rewrite Hid' in *.
  split; [exact Hout|].
  rewrite Happ.
  - vm_compute. reflexivity.
  - apply Hbig. vm_compute. reflexivity.
  - apply (bool_decide_unpack _). vm_compute. exact I.
Defined.

(** *** What [merge] leaves behind *)




(** X10: [fromJSON(toJSON(s))] is [s] with both handlers cleared, so it shows
    the same text, and merging it gives what merging [s] itself gives.  A
    snapshot with all four fields survives [toJSON(fromJSON(json))], and one
    with only a node id is read as a fresh replica. *)
Theorem text_json_round_trip (s receiver : t) (id : string) (counter : Z)
    (es : gmap string Entry) (ord : list string) :
  fromJSON (toJSON s)
  = mk (localNodeId s) (localCounter s) (entries s) (order s) false false
  /\ getText (fromJSON (toJSON s)) = getText s
  /\ merge receiver (fromJSON (toJSON s)) = merge receiver s
  /\ toJSON (fromJSON (mkJSON id (Some counter) (Some es) (Some ord)))
     = mkJSON id (Some counter) (Some es) (Some ord)
  /\ fromJSON (mkJSON id None None None) = new id.
Proof.
  unfold fromJSON, toJSON, construct. simpl. rewrite !orZero_id.
  repeat split.
Qed.

(** *** Ids are allocated once *)

Lemma colonFree_pretty_N_go (x : N) (s : string) :
  colonFree s = true -> colonFree (pretty_N_go x s) = true.
Proof.
  revert s. induction (N.lt_wf_0 x) as [x _ IH]; intros s Hs.
  assert (x = 0 \/ 0 < x)%N as [->|Hx] by lia.
  - by rewrite pretty_N_go_0.
  - rewrite pretty_N_go_step by done. apply IH.
    { by apply N.div_lt. }
    simpl. rewrite Hs. unfold pretty_N_char. by repeat case_match.
Qed.

Lemma colonFree_pretty_N (x : N) : colonFree (pretty x) = true.
Proof.
  unfold pretty, pretty_N. case_decide; [done|].
  by apply colonFree_pretty_N_go.
Qed.

(** A counter is rendered without a colon. *)
Lemma colonFree_pretty_Z (z : Z) : colonFree (pretty z) = true.
Proof.
  destruct z as [|p|p]; [done| |].
  - apply (colonFree_pretty_N (N.pos p)).
  - change (pretty (Z.neg p)) with ("-" +:+ pretty (N.pos p)).
    change ("-" +:+ pretty (N.pos p)) with (String "-" (pretty (N.pos p))).
    simpl. apply (colonFree_pretty_N (N.pos p)).
Qed.

Lemma colonFree_with_colon (n d : string) :
  colonFree (n +:+ ":" +:+ d) = false.
Proof.
  induction n as [|c n IH]; [done|].
  rewrite append_cons. simpl. rewrite IH. apply andb_false_r.
Qed.

(** An id is cut at its last colon: what follows a colon and has none
    itself is determined by the id. *)
Lemma id_suffix_inj (n1 n2 d1 d2 : string) :
  colonFree d1 = true -> colonFree d2 = true ->
  n1 +:+ ":" +:+ d1 = n2 +:+ ":" +:+ d2 -> d1 = d2.
Proof.
  intros H1 H2. revert n2.
  induction n1 as [|c n1 IH]; intros [|c' n2] E.
  - by injection E.
  - injection E as _ E. change ("" +:+ d1) with d1 in E.
    rewrite E, colonFree_with_colon in H1. done.
  - injection E as _ E. change ("" +:+ d2) with d2 in E.
    rewrite <- E, colonFree_with_colon in H2. done.
  - injection E as _ E. by apply (IH n2).
Qed.

Lemma id_counter_inj (n1 n2 : string) (c1 c2 : Z) :
  n1 +:+ ":" +:+ pretty c1 = n2 +:+ ":" +:+ pretty c2 -> c1 = c2.
Proof.
  intros E. apply (inj pretty).
  eapply id_suffix_inj; eauto using colonFree_pretty_Z.
Qed.

Lemma nextId_fresh (s : t) : countersBelow s -> fst (nextId s) ∉ ids s.
Proof. intros H. apply H. lia. Qed.

(** The names of [Object.prototype] contain no colon, so an allocated id is
    none of them. *)
Lemma inherited_colonFree (k : string) :
  Js.inherited k = true -> colonFree k = true.
Proof.
  unfold Js.inherited, Js.member, Js.methodNames. simpl existsb.
  repeat match goal with
         | |- context [String.eqb k ?c] =>
             destruct (String.eqb_spec k c) as [->|_];
               [intros _; reflexivity|simpl]
         end.
  discriminate.
Qed.

Lemma nextId_plain (s : t) : Js.inherited (fst (nextId s)) = false.
Proof.
  destruct (Js.inherited (fst (nextId s))) eqn:E; [|done].
  apply inherited_colonFree in E. simpl in E.
  by rewrite colonFree_with_colon in E.
Qed.

Lemma not_in_ids (s : t) (id : string) :
  id ∉ ids s -> (id ∉ order s) /\ entries s !! id = None.
Proof.
  rewrite elem_of_ids, elem_of_dom. intros H. split; [tauto|].
  destruct (entries s !! id) eqn:E; [|done]. destruct H. eauto.
Qed.

Lemma spliceAt_perm (es : gmap string Entry) (id : string)
    (ord : list string) (j : nat) :
  (j < length (List.filter (isLive es) ord))%nat ->
  spliceAt es id j ord ≡ₚ id :: ord.
Proof.
  intros Hj.
  destruct (spliceAt_hit es id ord j Hj) as (pre & t & post & -> & _ & _ & ->).
  by rewrite <- Permutation_middle.
Qed.

(** The [order] a successful [insertAt] leaves when the allocated id is not
    in [order] yet. *)
Lemma insertAt_order (index : Z) (ch : string) (s : t) :
  String.length ch = 1%nat ->
  fst (nextId s) ∉ order s ->
  let j := Z.to_nat (clamp index (length (visibleIds s))) in
  order (after (insertAt index (JsString ch) s))
  = if decide (j < length (visibleIds s))%nat
    then spliceAt (entries s) (fst (nextId s)) j (order s)
    else order s ++ [fst (nextId s)].
Proof.
  intros Hlen Hfresh j.
  pose proof (insertAt_single_char index ch s Hlen) as E. cbv zeta in E.
  rewrite E. clear E. simpl in *.
  set (id := localNodeId s +:+ ":" +:+ pretty (localCounter s + 1)) in *.
  set (n := length (visibleIds s)) in *.
  assert (Hk : 0 <= clamp index n <= Z.of_nat n) by (unfold clamp; lia).
  case_decide as Hj.
  - destruct (Z.eqb_spec (clamp index n) (Z.of_nat n)); [lia|]. done.
  - destruct (Z.eqb_spec (clamp index n) (Z.of_nat n)); [|lia].
    rewrite spliceAt_miss by (fold (visibleIds s); fold n; lia).
    destruct (includes (order s) id) eqn:Hinc; [|done].
    by apply includes_spec in Hinc.
Qed.

Lemma insertAt_order_perm (index : Z) (ch : string) (s : t) :
  String.length ch = 1%nat ->
  fst (nextId s) ∉ order s ->
  order (after (insertAt index (JsString ch) s))
  ≡ₚ fst (nextId s) :: order s.
Proof.
  intros Hlen Hfresh.
  pose proof (insertAt_order index ch s Hlen Hfresh) as E. cbv zeta in E.
  rewrite E. case_decide.
  - by apply spliceAt_perm.
  - by rewrite Permutation_app_comm.
Qed.

Lemma insertAt_fields (index : Z) (ch : string) (s : t) :
  String.length ch = 1%nat ->
  entries (after (insertAt index (JsString ch) s))
  = <[fst (nextId s) := mkEntry ch false]> (entries s)
  /\ localCounter (after (insertAt index (JsString ch) s))
     = localCounter s + 1.
Proof.
  intros Hlen.
  pose proof (insertAt_single_char index ch s Hlen) as E. cbv zeta in E.
  by rewrite E.
Qed.

(** A call of [insertAt] either throws and leaves the object alone, or was
    given a one-character string. *)
Lemma insertAt_cases (index : Z) (c : JsValue) (s : t) :
  after (insertAt index c s) = s
  \/ exists ch, c = JsString ch /\ String.length ch = 1%nat.
Proof.
  destruct c as [| |b|n|ch|]; try by left.
  unfold insertAt.
  destruct (Nat.eqb_spec (String.length ch) 1); [right; eauto|by left].
Qed.

Lemma wellFormed_insertAt (index : Z) (c : JsValue) (s : t) :
  wellFormed s -> wellFormed (after (insertAt index c s)).
Proof.
  intros (Hnd & Hent & Hctr & Hpl).
  destruct (insertAt_cases index c s) as [->|(ch & -> & Hlen)]; [done|].
  destruct (not_in_ids s _ (nextId_fresh s Hctr)) as [Hord Hnone].
  pose proof (insertAt_order_perm index ch s Hlen Hord) as HP.
  destruct (insertAt_fields index ch s Hlen) as [He Hc].
  split; [|split; [|split]]; cycle 3.
  { intros x. rewrite He.
    destruct (decide (x = fst (nextId s))) as [->|Hne].
    - intros _. apply nextId_plain.
    - rewrite lookup_insert_ne by done. apply Hpl. }
  - rewrite HP. by apply NoDup_cons.
  - intros x. rewrite HP, He, elem_of_cons, Hent.
    destruct (decide (x = fst (nextId s))) as [->|Hne].
    + rewrite lookup_insert_eq. split; eauto.
    + rewrite lookup_insert_ne by done. split; [intros [?|?]|]; tauto.
  - intros n c Hlt Hin. rewrite Hc in Hlt.
    rewrite elem_of_ids, HP, He, dom_insert_L, elem_of_union,
      elem_of_singleton, elem_of_cons in Hin.
    assert (n +:+ ":" +:+ pretty c = fst (nextId s)
            \/ n +:+ ":" +:+ pretty c ∈ ids s) as [E|Hold].
    { rewrite elem_of_ids. tauto. }
    + apply id_counter_inj in E. lia.
    + apply (Hctr n c); [lia|done].
Qed.

Lemma wellFormed_deleteAt (index : Z) (s : t) :
  wellFormed s -> wellFormed (after (deleteAt index s)).
Proof.
  intros (Hnd & Hent & Hctr & Hpl). unfold deleteAt.
  destruct ((index <? 0) || (index >=? Z.of_nat (length (visibleIds s))));
    [done|].
  destruct (visibleIds s !! Z.to_nat index) as [id|]; [|done].
  destruct (entries s !! id) as [entry|] eqn:He;
    [|by destruct (Js.inherited id)].
  simpl. split; [done|split; [|split]]; cycle 2.
  { intros x. simpl. destruct (decide (id = x)) as [->|Hne].
    - intros _. apply Hpl. by rewrite He.
    - rewrite lookup_insert_ne by done. apply Hpl. }
  - intros x. rewrite Hent. simpl.
    destruct (decide (id = x)) as [->|Hne].
    + rewrite lookup_insert_eq, He. split; eauto.
    + by rewrite lookup_insert_ne.
  - intros n c Hlt. simpl in Hlt. specialize (Hctr n c Hlt).
    rewrite elem_of_ids in *. simpl.
    rewrite dom_insert_L, elem_of_union, elem_of_singleton.
    intros [?|[E|?]]; [tauto| |tauto].
    apply Hctr. right. rewrite E. by apply elem_of_dom.
Qed.

Lemma wellFormed_merge (s other : t) :
  wellFormed s -> wellFormed other -> wellFormed (merge s other).
Proof.
  intros (Hnd & Hent & Hctr & Hpl) (Hnd' & Hent' & Hctr' & Hpl').
  split; [|split; [|split]].
  - simpl. apply sortIds_NoDup, NoDup_remove_dups.
  - intros x. simpl.
    rewrite elem_of_sortIds, elem_of_idSet, Hent, Hent', <- !elem_of_dom,
      mergeEntries_dom, elem_of_union by done.
    tauto.
  - intros n c Hlt. rewrite ids_merge, elem_of_union by done.
    simpl in Hlt. rewrite orZero_id in Hlt.
    intros [H|H]; [apply (Hctr n c)|apply (Hctr' n c)]; done || lia.
  - by apply plainIds_mergeEntries.
Qed.

Lemma reachable_wellFormed (s : t) : reachable s -> wellFormed s.
Proof.
  induction 1 as [id|s index c _ IH|s index _ IH|s o _ IH _ IH'].
  - split; [constructor|split; [|split]].
    + intros x. simpl. rewrite lookup_empty, elem_of_nil. split; [done|].
      by intros [].
    + intros n c _. rewrite elem_of_ids. simpl.
      rewrite elem_of_nil, dom_empty_L, elem_of_empty. tauto.
    + intros x. simpl. rewrite lookup_empty. by intros [].
  - by apply wellFormed_insertAt.
  - by apply wellFormed_deleteAt.
  - by apply wellFormed_merge.
Qed.

(** X11: in every state a replica reaches from a fresh object through
    [insertAt], [deleteAt] and [merge], [order] holds no id twice, the ids of
    [order] are exactly the keys of [entries], and the id the next
    [insertAt] will allocate occurs in neither. *)
Theorem reachable_ids_unique (s : t) :
  reachable s ->
  NoDup (order s)
  /\ (forall id, id ∈ order s <-> is_Some (entries s !! id))
  /\ (fst (nextId s) ∉ order s)
  /\ entries s !! fst (nextId s) = None.
Proof.
  intros (Hnd & Hent & Hctr & _)%reachable_wellFormed.
  destruct (not_in_ids s _ (nextId_fresh s Hctr)) as [Hord Hnone].
  done.
Qed.

Lemma reachable_ids_unique_hi :
  NoDup (order Samples.hi) /\ "A:3" ∉ order Samples.hi.
Proof.
  destruct (reachable_ids_unique Samples.hi) as (Hnd & _ & Hfresh & _).
  { apply reach_insertAt, reach_insertAt, reach_new. }
  split; [exact Hnd|].
  assert (E : fst (nextId Samples.hi) = "A:3") by (vm_compute; reflexivity).
  by rewrite <- E.
Defined.

(** *** What an insert shows *)

Lemma filter_isLive_ext (es es' : gmap string Entry) (ord : list string) :
  (forall x, x ∈ ord -> isLive es' x = isLive es x) ->
  List.filter (isLive es') ord = List.filter (isLive es) ord.
Proof.
  intros H. apply List.filter_ext_in. intros x Hx.
  apply H. by apply list_elem_of_In.
Qed.

Lemma filter_spliceAt (es es' : gmap string Entry) (id : string)
    (ord : list string) (j : nat) :
  (forall x, x ∈ ord -> isLive es' x = isLive es x) ->
  isLive es' id = true ->
  (j < length (List.filter (isLive es) ord))%nat ->
  List.filter (isLive es') (spliceAt es id j ord)
  = take j (List.filter (isLive es) ord)
    ++ id :: drop j (List.filter (isLive es) ord).
Proof.
  intros Hext Hid. revert j.
  induction ord as [|x ord IH]; intros j Hj; simpl in *; [lia|].
  assert (Hx : isLive es' x = isLive es x) by (apply Hext; left).
  assert (Hrest : forall y, y ∈ ord -> isLive es' y = isLive es y)
    by (intros y Hy; apply Hext; by right).
  destruct (isLive es x) eqn:Hlive.
  - destruct j as [|j]; simpl.
    + rewrite Hid, Hx. by rewrite (filter_isLive_ext es es' ord Hrest).
    + rewrite Hx. simpl in Hj. rewrite IH by (done || lia). done.
  - simpl. rewrite Hx. by apply IH.
Qed.

Lemma isLive_insert_new (es : gmap string Entry) (id x ch : string) :
  isLive (<[id := mkEntry ch false]> es) x
  = if decide (x = id) then true else isLive es x.
Proof.
  unfold isLive. case_decide as Hx.
  - subst. by rewrite lookup_insert_eq.
  - by rewrite lookup_insert_ne.
Qed.

Lemma visibleIds_subset (s : t) (x : string) :
  x ∈ visibleIds s -> x ∈ order s.
Proof.
  unfold visibleIds. rewrite !list_elem_of_In, List.filter_In. tauto.
Qed.

(** The visible ids after a successful [insertAt] of a new id. *)
Lemma insertAt_visible (index : Z) (ch : string) (s : t) :
  String.length ch = 1%nat ->
  fst (nextId s) ∉ order s ->
  visibleIds (after (insertAt index (JsString ch) s))
  = take (Z.to_nat (clamp index (length (visibleIds s)))) (visibleIds s)
    ++ fst (nextId s)
    :: drop (Z.to_nat (clamp index (length (visibleIds s)))) (visibleIds s).
Proof.
  intros Hlen Hfresh.
  pose proof (insertAt_order index ch s Hlen Hfresh) as Ho. cbv zeta in Ho.
  destruct (insertAt_fields index ch s Hlen) as [He _].
  unfold visibleIds at 1. rewrite Ho, He. clear Ho He.
  set (id := fst (nextId s)) in *.
  set (j := Z.to_nat (clamp index (length (visibleIds s)))).
  assert (Hext : forall x, x ∈ order s ->
    isLive (<[id := mkEntry ch false]> (entries s)) x
    = isLive (entries s) x).
  { intros x Hx. rewrite isLive_insert_new. case_decide; [by subst|done]. }
  assert (Hid : isLive (<[id := mkEntry ch false]> (entries s)) id = true).
  { rewrite isLive_insert_new. by case_decide. }
  case_decide as Hj.
  - by apply filter_spliceAt.
  - rewrite List.filter_app. simpl. rewrite Hid.
    rewrite (filter_isLive_ext _ _ _ Hext). fold (visibleIds s).
    rewrite take_ge, drop_ge by lia. done.
Qed.

(** X12: when the id that [insertAt] allocates is not in [order] yet, a
    successful [insertAt(index, char)] puts that id at position [k] of the
    visible ids, [k] being [index] clamped into [0 .. visibleLength]; the
    visible ids before and after it are the ones that were there, in the
    same order. *)
Theorem insertAt_visibleIds (index : Z) (ch : string) (s : t) :
  String.length ch = 1%nat ->
  fst (nextId s) ∉ order s ->
  visibleIds (after (insertAt index (JsString ch) s))
  = take (Z.to_nat (clamp index (length (visibleIds s)))) (visibleIds s)
    ++ fst (nextId s)
    :: drop (Z.to_nat (clamp index (length (visibleIds s)))) (visibleIds s).
Proof. apply insertAt_visible. Qed.

Lemma insertAt_visibleIds_hi :
  visibleIds (after (insertAt 1 (JsString "!") Samples.hi))
  = ["A:1"; "A:3"; "A:2"].
Proof.
  rewrite (insertAt_visibleIds 1 "!" Samples.hi).
  - vm_compute. reflexivity.
  - reflexivity.
  - apply (bool_decide_unpack _). vm_compute. exact I.
Defined.

Lemma getText_visibleChars (s : t) :
  (forall x, x ∈ order s -> is_Some (entries s !! x)) ->
  getText s = String.concat "" (visibleChars s).
Proof.
  intros Hent. unfold getText, visibleChars. rewrite getText_loop; [done|].
  intros id Hid He. destruct (Hent id Hid) as [e He']. congruence.
Qed.

(** When every id of [order] has an entry, the visible characters are the
    characters of the visible ids. *)
Lemma visibleChars_fmap (s : t) :
  (forall x, x ∈ order s -> is_Some (entries s !! x)) ->
  visibleChars s = charOf (entries s) <$> visibleIds s.
Proof.
  unfold visibleChars, visibleIds. generalize (order s) as ord.
  induction ord as [|x ord IH]; intros Hall; [done|].
  rewrite omap_liveChar_cons. simpl List.filter.
  destruct (Hall x) as [e He]; [left|].
  unfold liveChar at 1, isLive at 1, charOf at 1.
  rewrite IH by (intros y Hy; apply Hall; by right).
  rewrite He. destruct (deleted e); simpl; [done|].
  unfold charOf at 1. by rewrite He.
Qed.

(** X13: on a state reached from a fresh replica, a successful
    [insertAt(index, char)] puts [char] at position [k] of the visible
    characters, [k] being [index] clamped into [0 .. length], and keeps the
    characters before and behind it; [getText()] is the concatenation of
    that list. *)
Theorem insertAt_visibleChars (index : Z) (ch : string) (s : t) :
  reachable s ->
  String.length ch = 1%nat ->
  visibleChars (after (insertAt index (JsString ch) s))
  = take (Z.to_nat (clamp index (length (visibleChars s)))) (visibleChars s)
    ++ ch
    :: drop (Z.to_nat (clamp index (length (visibleChars s))))
         (visibleChars s)
  /\ getText (after (insertAt index (JsString ch) s))
     = String.concat ""
         (take (Z.to_nat (clamp index (length (visibleChars s))))
               (visibleChars s)
          ++ ch
          :: drop (Z.to_nat (clamp index (length (visibleChars s))))
               (visibleChars s)).
Proof.
  intros Hs Hlen.
  assert (Hs1 : reachable (after (insertAt index (JsString ch) s)))
    by by apply reach_insertAt.
  apply reachable_wellFormed in Hs as (Hnd & Hent & Hctr & _).
  apply reachable_wellFormed in Hs1 as (_ & Hent1 & _).
  destruct (not_in_ids s _ (nextId_fresh s Hctr)) as [Hfresh Hnone].
  assert (E : visibleChars (after (insertAt index (JsString ch) s))
    = take (Z.to_nat (clamp index (length (visibleChars s))))
        (visibleChars s)
      ++ ch
      :: drop (Z.to_nat (clamp index (length (visibleChars s))))
           (visibleChars s)).
  { rewrite (visibleChars_fmap s) by (intros x; apply Hent).
    rewrite visibleChars_fmap by (intros x; apply Hent1).
    destruct (insertAt_fields index ch s Hlen) as [He _].
    pose proof (insertAt_visible index ch s Hlen Hfresh) as Hv.
    rewrite Hv, He, length_fmap, fmap_app, fmap_cons, fmap_take, fmap_drop.
    assert (Hc : charOf (<[fst (nextId s) := mkEntry ch false]> (entries s))
                   <$> visibleIds s
                 = charOf (entries s) <$> visibleIds s).
    { apply list_fmap_ext. intros i x Hx. unfold charOf.
      rewrite lookup_insert_ne; [done|]. intros <-.
      apply Hfresh, visibleIds_subset. eapply list_elem_of_lookup_2, Hx. }
    rewrite Hc. unfold charOf at 2. by rewrite lookup_insert_eq. }
  split; [exact E|].
  by rewrite getText_visibleChars, E by (intros x; apply Hent1).
Qed.

Lemma insertAt_visibleChars_hi :
  getText (after (insertAt 1 (JsString "!") Samples.hi)) = "H!i".
Proof.
  destruct (insertAt_visibleChars 1 "!" Samples.hi) as [_ E].
  - apply reach_insertAt, reach_insertAt, reach_new.
  - reflexivity.
  - rewrite E. vm_compute. reflexivity.
Defined.

(** *** What a delete hides *)

Lemma deleteAt_hit (index : Z) (s : t) (id : string) (e : Entry) :
  0 <= index < Z.of_nat (length (visibleIds s)) ->
  visibleIds s !! Z.to_nat index = Some id ->
  entries s !! id = Some e ->
  after (deleteAt index s)
  = mk (localNodeId s) (localCounter s)
       (<[id := mkEntry (char e) true]> (entries s))
       (order s) (onInsert s) (onDelete s).
Proof.
  intros Hr Hv He. unfold deleteAt.
  destruct (Z.ltb_spec index 0); [lia|].
  destruct (Z.geb_spec index (Z.of_nat (length (visibleIds s)))); [lia|].
  simpl. by rewrite Hv, He.
Qed.

Lemma filter_isLive_tombstone (es : gmap string Entry) (id c : string)
    (ord : list string) :
  List.filter (isLive (<[id := mkEntry c true]> es)) ord
  = List.filter (fun x => negb (String.eqb x id))
      (List.filter (isLive es) ord).
Proof.
  induction ord as [|x ord IH]; [done|]. simpl.
  destruct (String.eqb_spec x id) as [->|Hne].
  - unfold isLive at 1. rewrite lookup_insert_eq. simpl.
    destruct (isLive es id); simpl; [by rewrite String.eqb_refl|done].
  - unfold isLive at 1. rewrite lookup_insert_ne by done.
    fold (isLive es x). destruct (isLive es x); simpl; [|done].
    destruct (String.eqb_spec x id); [done|]. simpl. by rewrite IH.
Qed.

Lemma filter_ne_notin (id : string) (l : list string) :
  id ∉ l -> List.filter (fun x => negb (String.eqb x id)) l = l.
Proof.
  induction l as [|x l IH]; [done|].
  rewrite not_elem_of_cons. intros [Hne Hl]. simpl.
  destruct (String.eqb_spec x id); [congruence|]. simpl. by rewrite IH.
Qed.

Lemma filter_ne_delete (id : string) (l : list string) (i : nat) :
  NoDup l -> l !! i = Some id ->
  List.filter (fun x => negb (String.eqb x id)) l = delete i l.
Proof.
  revert i. induction l as [|x l IH]; intros i Hnd Hi; [done|].
  apply NoDup_cons in Hnd as [Hx Hnd]. simpl.
  destruct i as [|i]; simpl in *.
  - injection Hi as ->. rewrite String.eqb_refl. simpl.
    by apply filter_ne_notin.
  - destruct (String.eqb_spec x id) as [->|Hne].
    + destruct Hx. by eapply list_elem_of_lookup_2.
    + simpl. by rewrite (IH i).
Qed.

Lemma charOf_tombstone (es : gmap string Entry) (id x : string) (e : Entry) :
  es !! id = Some e ->
  charOf (<[id := mkEntry (char e) true]> es) x = charOf es x.
Proof.
  intros He. unfold charOf. destruct (decide (id = x)) as [->|Hne].
  - by rewrite lookup_insert_eq, He.
  - by rewrite lookup_insert_ne.
Qed.

(** X14: on a state reached from a fresh replica, [deleteAt(index)] with
    [index] inside the visible range removes exactly the character at that
    position from the visible characters and keeps the others in their
    order; [getText()] is the concatenation of what is left. *)
Theorem deleteAt_visibleChars (index : Z) (s : t) :
  reachable s ->
  0 <= index < Z.of_nat (length (visibleChars s)) ->
  visibleChars (after (deleteAt index s))
  = delete (Z.to_nat index) (visibleChars s)
  /\ getText (after (deleteAt index s))
     = String.concat "" (delete (Z.to_nat index) (visibleChars s)).
Proof.
  intros Hs Hr.
  assert (Hs2 : reachable (after (deleteAt index s)))
    by by apply reach_deleteAt.
  apply reachable_wellFormed in Hs as (Hnd & Hent & _).
  apply reachable_wellFormed in Hs2 as (_ & Hent2 & _).
  assert (E : visibleChars (after (deleteAt index s))
              = delete (Z.to_nat index) (visibleChars s)).
  { rewrite visibleChars_fmap by (intros x; apply Hent2).
    rewrite (visibleChars_fmap s) in * by (intros x; apply Hent).
    rewrite length_fmap in Hr.
    destruct (visibleIds_lookup_lt s index Hr) as [id Hid].
    destruct (Hent id) as [[e He] _].
    { eapply visibleIds_subset, list_elem_of_lookup_2, Hid. }
    rewrite (deleteAt_hit index s id e Hr Hid He).
    unfold visibleIds at 1. simpl.
    rewrite filter_isLive_tombstone. fold (visibleIds s).
    rewrite (filter_ne_delete id (visibleIds s) (Z.to_nat index));
      [|unfold visibleIds;
        by apply NoDup_ListNoDup, List.NoDup_filter, NoDup_ListNoDup|done].
    rewrite list_fmap_delete. f_equal.
    apply list_fmap_ext. intros i x _. by apply charOf_tombstone. }
  split; [exact E|].
  by rewrite getText_visibleChars, E by (intros x; apply Hent2).
Qed.

Lemma deleteAt_visibleChars_hi :
  getText (after (deleteAt 0 Samples.hi)) = "i".
Proof.
  destruct (deleteAt_visibleChars 0 Samples.hi) as [_ E].
  - apply reach_insertAt, reach_insertAt, reach_new.
  - vm_compute. split; [discriminate|reflexivity].
  - rewrite E. vm_compute. reflexivity.
Defined.

(** *** An insert undone by a delete *)

Lemma filter_ne_middle (id : string) (l1 l2 : list string) :
  id ∉ l1 ++ l2 ->
  List.filter (fun x => negb (String.eqb x id)) (l1 ++ id :: l2) = l1 ++ l2.
Proof.
  intros [H1 H2]%not_elem_of_app.
  rewrite List.filter_app. simpl. rewrite String.eqb_refl. simpl.
  by rewrite !filter_ne_notin.
Qed.

(** Taking the new id out of the [order] an insert leaves gives the old
    [order] back. *)
Lemma insertAt_order_filter (index : Z) (ch : string) (s : t) :
  String.length ch = 1%nat ->
  fst (nextId s) ∉ order s ->
  List.filter (fun x => negb (String.eqb x (fst (nextId s))))
    (order (after (insertAt index (JsString ch) s)))
  = order s.
Proof.
  intros Hlen Hfresh.
  pose proof (insertAt_order index ch s Hlen Hfresh) as E. cbv zeta in E.
  rewrite E. clear E. case_decide as Hj.
  - destruct (spliceAt_hit (entries s) (fst (nextId s)) (order s) _ Hj)
      as (pre & t & post & Hord & _ & _ & ->).
    rewrite Hord in *. by apply filter_ne_middle.
  - rewrite <- (app_nil_r (order s)) at 2.
    apply filter_ne_middle. by rewrite app_nil_r.
Qed.

(** X15: when the id that [insertAt] allocates is not in [order] yet, a
    successful [insertAt(index, char)] followed by [deleteAt(k)], [k] being
    the clamped index the insert worked with, gives back the visible ids and
    the text from before the insert; the new id stays in [order] and keeps
    its entry, now deleted. *)
Theorem insertAt_then_deleteAt (index : Z) (ch : string) (s : t) :
  String.length ch = 1%nat ->
  fst (nextId s) ∉ order s ->
  visibleIds
    (after (deleteAt (clamp index (length (visibleIds s)))
              (after (insertAt index (JsString ch) s))))
  = visibleIds s
  /\ getText
       (after (deleteAt (clamp index (length (visibleIds s)))
                 (after (insertAt index (JsString ch) s))))
     = getText s
  /\ order
       (after (deleteAt (clamp index (length (visibleIds s)))
                 (after (insertAt index (JsString ch) s))))
     = order (after (insertAt index (JsString ch) s))
  /\ entries
       (after (deleteAt (clamp index (length (visibleIds s)))
                 (after (insertAt index (JsString ch) s))))
       !! fst (nextId s)
     = Some (mkEntry ch true).
Proof.
  intros Hlen Hfresh.
  set (id := fst (nextId s)) in *.
  set (k := clamp index (length (visibleIds s))).
  set (s1 := after (insertAt index (JsString ch) s)).
  assert (Hk : 0 <= k <= Z.of_nat (length (visibleIds s)))
    by (unfold k, clamp; lia).
  pose proof (insertAt_visible index ch s Hlen Hfresh) as Hv1.
  fold id k s1 in Hv1.
  destruct (insertAt_fields index ch s Hlen) as [He1 _]. fold id s1 in He1.
  pose proof (insertAt_order_filter index ch s Hlen Hfresh) as Ho1.
  fold id s1 in Ho1.
  assert (Hvis : id ∉ visibleIds s)
    by (intros H; by apply Hfresh, visibleIds_subset).
  assert (Hr : 0 <= k < Z.of_nat (length (visibleIds s1))).
  { rewrite Hv1, length_app, length_take_le by lia. simpl.
    rewrite length_drop. lia. }
  assert (Hat : visibleIds s1 !! Z.to_nat k = Some id).
  { rewrite Hv1. apply list_lookup_middle. rewrite length_take_le; lia. }
  assert (Hent : entries s1 !! id = Some (mkEntry ch false))
    by (by rewrite He1, lookup_insert_eq).
  rewrite (deleteAt_hit k s1 id _ Hr Hat Hent). simpl.
  split; [|split; [|split]].
  - unfold visibleIds at 1. simpl.
    rewrite filter_isLive_tombstone. fold (visibleIds s1). rewrite Hv1.
    rewrite filter_ne_middle by (by rewrite take_drop).
    apply take_drop.
  - rewrite !getText_shown. simpl.
    rewrite <- (omap_filter_ne (shown _) id (order s1))
      by (unfold shown; by rewrite lookup_insert_eq).
    rewrite Ho1. f_equal. apply omap_ext_in. intros x Hx.
    unfold shown. rewrite He1, !lookup_insert_ne; [done|..];
      intros <-; by apply Hfresh.
  - done.
  - by rewrite lookup_insert_eq.
Qed.

Lemma insertAt_then_deleteAt_hi :
  getText (after (deleteAt 1 (after (insertAt 1 (JsString "!") Samples.hi))))
  = "Hi".
Proof.
  destruct (insertAt_then_deleteAt 1 "!" Samples.hi) as (_ & E & _).
  - reflexivity.
  - apply (bool_decide_unpack _). vm_compute. exact I.
  - assert (K : clamp 1 (length (visibleIds Samples.hi)) = 1)
      by (vm_compute; reflexivity).
    rewrite K in E. rewrite E. vm_compute. reflexivity.
Defined.

(** *** What stays once it is there *)

Lemma later_reachable (s s' : t) : reachable s -> later s s' -> reachable s'.
Proof.
  intros Hs. induction 1; auto using reach_insertAt, reach_deleteAt,
    reach_merge.
Qed.

Lemma deleteAt_keeps (index : Z) (s : t) (id : string) (e : Entry) :
  entries s !! id = Some e ->
  (exists e', entries (after (deleteAt index s)) !! id = Some e'
              /\ char e' = char e
              /\ (deleted e = true -> deleted e' = true))
  /\ localCounter (after (deleteAt index s)) = localCounter s.
Proof.
  intros He. unfold deleteAt.
  destruct ((index <? 0) || (index >=? Z.of_nat (length (visibleIds s))));
    [eauto|].
  destruct (visibleIds s !! Z.to_nat index) as [x|]; [|eauto].
  destruct (entries s !! x) as [ex|] eqn:Hx;
    [|destruct (Js.inherited x); eauto].
  simpl. split; [|done].
  destruct (decide (x = id)) as [->|Hne].
  - rewrite lookup_insert_eq. exists (mkEntry (char ex) true).
    simpl. split; [done|]. split; [congruence|done].
  - rewrite lookup_insert_ne by done. eauto.
Qed.

(** X16: from a state a replica has reached, no later call of [insertAt],
    [deleteAt] or [merge] removes an entry, changes its character or clears
    its [deleted] flag; the id stays in [order], and [localCounter] never
    goes down. *)
Theorem later_keeps_entries (s s' : t) (id : string) (e : Entry) :
  reachable s -> later s s' ->
  entries s !! id = Some e ->
  (exists e', entries s' !! id = Some e'
              /\ char e' = char e
              /\ (deleted e = true -> deleted e' = true))
  /\ id ∈ order s'
  /\ localCounter s <= localCounter s'.
Proof.
  intros Hs Hl He.
  assert (Hmain : (exists e', entries s' !! id = Some e'
                     /\ char e' = char e
                     /\ (deleted e = true -> deleted e' = true))
                  /\ localCounter s <= localCounter s').
  { induction Hl as [s|s s' index c Hl IH|s s' index Hl IH|s s' o Hl IH Ho].
    - split; [eauto|lia].
    - destruct (IH Hs He) as [(e' & He' & Hc & Hd) Hle].
      destruct (insertAt_cases index c s') as [->|(ch & -> & Hlen)];
        [split; eauto|].
      destruct (insertAt_fields index ch s' Hlen) as [-> ->].
      split; [|lia]. exists e'.
      rewrite lookup_insert_ne; [done|]. intros E.
      pose proof (later_reachable s s' Hs Hl) as Hr.
      apply reachable_wellFormed in Hr as (_ & _ & Hctr & _).
      destruct (not_in_ids s' _ (nextId_fresh s' Hctr)) as [_ Hnone].
      rewrite E, He' in Hnone. done.
    - destruct (IH Hs He) as [(e' & He' & Hc & Hd) Hle].
      destruct (deleteAt_keeps index s' id e' He')
        as [(e'' & He'' & Hc' & Hd') ->].
      split; [|done]. exists e''. split; [done|].
      split; [congruence|auto].
    - destruct (IH Hs He) as [(e' & He' & Hc & Hd) Hle].
      split.
      + simpl. rewrite mergeEntries_lookup_own, He' by eauto.
        destruct (entries o !! id) as [r|]; simpl; [|eauto].
        eexists. split; [done|]. simpl. split; [done|].
        intros Hdel. by rewrite (Hd Hdel).
      + simpl. rewrite orZero_id. lia. }
  destruct Hmain as [(e' & He' & Hrest) Hle].
  split; [eauto|]. split; [|done].
  pose proof (later_reachable s s' Hs Hl) as Hr.
  apply reachable_wellFormed in Hr as (_ & Hent & _).
  apply Hent. eauto.
Qed.

Lemma later_keeps_entries_hiStruck :
  (exists e', entries (merge Samples.hiStruck Samples.bang) !! "A:1" = Some e'
              /\ char e' = "H"
              /\ (true = true -> deleted e' = true))
  /\ "A:1" ∈ order (merge Samples.hiStruck Samples.bang)
  /\ localCounter Samples.hiStruck
     <= localCounter (merge Samples.hiStruck Samples.bang).
Proof.
  apply (later_keeps_entries Samples.hiStruck
           (merge Samples.hiStruck Samples.bang) "A:1" (mkEntry "H" true)).
  - apply reach_deleteAt, reach_insertAt, reach_insertAt, reach_new.
  - apply later_merge; [apply later_now|].
    apply reach_deleteAt, reach_insertAt, reach_insertAt, reach_new.
  - vm_compute. reflexivity.
Defined.

(** *** Two replicas exchanging their states *)

Lemma joinEntry_absorb (a b : t) (k : string) :
  agree a b ->
  joinEntry (entries b !! k) (joinEntry (entries a !! k) (entries b !! k))
  = joinEntry (entries a !! k) (entries b !! k)
  /\ joinEntry (entries b !! k) (entries a !! k)
     = joinEntry (entries a !! k) (entries b !! k).
Proof.
  intros Hab.
  destruct (entries a !! k) as [x|] eqn:Ea, (entries b !! k) as [y|] eqn:Eb;
    simpl; try done.
  - pose proof (Hab k x y Ea Eb) as Hc.
    destruct x as [cx dx], y as [cy dy]; simpl in *; subst.
    split; f_equal; f_equal; by destruct dx, dy.
  - split; [|done]. destruct y as [cy dy]. simpl. by rewrite orb_diag.
Qed.

(** X17: when neither of two replicas has an entry under a name of
    [Object.prototype], the two agree on the character of every id they
    share, and [a] merges [b], then [b] merging either the original or the
    updated [a] ends with the same [entries], the same [order] and the same
    text as [a]. *)
Theorem merge_exchange_converges (a b : t) :
  plainIds (entries a) -> plainIds (entries b) ->
  agree a b ->
  entries (merge b (merge a b)) = entries (merge a b)
  /\ order (merge b (merge a b)) = order (merge a b)
  /\ getText (merge b (merge a b)) = getText (merge a b)
  /\ entries (merge b a) = entries (merge a b)
  /\ order (merge b a) = order (merge a b)
  /\ getText (merge b a) = getText (merge a b).
Proof.
  intros Pa Pb Hab.
  assert (Pab : plainIds (entries (merge a b)))
    by (by apply plainIds_mergeEntries).
  assert (E1 : entries (merge b (merge a b)) = entries (merge a b)).
  { apply map_eq. intros k. simpl. rewrite !mergeEntries_lookup by done.
    by apply joinEntry_absorb. }
  assert (O1 : order (merge b (merge a b)) = order (merge a b)).
  { rewrite (merge_order b), ids_merge, merge_order by done.
    f_equal. f_equal.
    apply set_eq. intros k. rewrite !elem_of_union. tauto. }
  assert (E2 : entries (merge b a) = entries (merge a b)).
  { apply map_eq. intros k. simpl. rewrite !mergeEntries_lookup by done.
    by apply joinEntry_absorb. }
  assert (O2 : order (merge b a) = order (merge a b)).
  { rewrite !merge_order by done. f_equal. f_equal.
    apply set_eq. intros k. rewrite !elem_of_union. tauto. }
  unfold getText. rewrite E1, O1, E2, O2. done.
Qed.

Lemma merge_exchange_converges_sample :
  getText (merge Samples.bang (merge Samples.hiStruck Samples.bang))
  = getText (merge Samples.hiStruck Samples.bang).
Proof.
  destruct (merge_exchange_converges Samples.hiStruck Samples.bang)
    as (_ & _ & E & _); [| | |exact E].
  - apply plainIds_by_key, (bool_decide_unpack _). vm_compute. exact I.
  - apply plainIds_by_key, (bool_decide_unpack _). vm_compute. exact I.
  - apply agree_check. apply (bool_decide_unpack _). vm_compute. exact I.
Defined.

(** *** Characters and positions *)

Lemma length_append (a b : string) :
  String.length (a +:+ b) = (String.length a + String.length b)%nat.
Proof.
  induction a as [|c a IH]; [done|]. rewrite append_cons. simpl. by rewrite IH.
Qed.

Lemma length_concat_single (l : list string) :
  Forall (fun c => String.length c = 1%nat) l ->
  String.length (String.concat "" l) = length l.
Proof.
  induction 1 as [|c l Hc _ IH]; [done|].
  rewrite concat_cons, length_append, Hc, IH. done.
Qed.

Lemma reachable_single_chars (s : t) :
  reachable s ->
  forall id e, entries s !! id = Some e -> String.length (char e) = 1%nat.
Proof.
  induction 1 as [n|s index c _ IH|s index _ IH|s o _ IH _ IH'];
    intros id e.
  - simpl. by rewrite lookup_empty.
  - destruct (insertAt_cases index c s) as [->|(ch & -> & Hlen)]; [apply IH|].
    destruct (insertAt_fields index ch s Hlen) as [-> _].
    destruct (decide (fst (nextId s) = id)) as [->|Hne].
    + rewrite lookup_insert_eq. by intros [= <-].
    + rewrite lookup_insert_ne by done. apply IH.
  - unfold deleteAt.
    destruct ((index <? 0) || (index >=? Z.of_nat (length (visibleIds s))));
      [apply IH|].
    destruct (visibleIds s !! Z.to_nat index) as [x|]; [|apply IH].
    destruct (entries s !! x) as [ex|] eqn:Hx;
      [|destruct (Js.inherited x); apply IH].
    simpl. destruct (decide (x = id)) as [->|Hne].
    + rewrite lookup_insert_eq. intros [= <-]. simpl. by apply (IH id).
    + rewrite lookup_insert_ne by done. apply IH.
  - simpl. rewrite mergeEntries_lookupAt. unfold joinEntryAt.
    destruct (entries s !! id) as [l|] eqn:El,
             (entries o !! id) as [r|] eqn:Er,
             (Js.inherited id); simpl; intros [= <-];
      simpl; eauto.
Qed.

(** X18: in a state reached from a fresh replica every stored character is
    a string of length one, so [getText()] is exactly as long as the list of
    visible ids: position [i] of the text is the character of the [i]-th
    visible id, the one [deleteAt(i)] addresses. *)
Theorem reachable_text_length (s : t) :
  reachable s ->
  (forall id e, entries s !! id = Some e -> String.length (char e) = 1%nat)
  /\ visibleChars s = charOf (entries s) <$> visibleIds s
  /\ String.length (getText s) = length (visibleIds s).
Proof.
  intros Hs.
  pose proof (reachable_single_chars s Hs) as Hc.
  apply reachable_wellFormed in Hs as (_ & Hent & _).
  assert (Hv : visibleChars s = charOf (entries s) <$> visibleIds s)
    by (apply visibleChars_fmap; intros x; apply Hent).
  split; [exact Hc|]. split; [exact Hv|].
  rewrite getText_visibleChars by (intros x; apply Hent).
  rewrite length_concat_single, Hv, length_fmap; [done|].
  rewrite Hv. apply Forall_fmap, Forall_forall. intros x Hx. simpl.
  destruct (Hent x) as [[e He] _]; [by apply visibleIds_subset|].
  unfold charOf. rewrite He. by apply (Hc x).
Qed.

Lemma reachable_text_length_hi :
  String.length (getText Samples.hi) = length (visibleIds Samples.hi).
Proof.
  apply (reachable_text_length Samples.hi).
  apply reach_insertAt, reach_insertAt, reach_new.
Defined.

End TextRGAFacts.
